(** * Salam: the generic hash table (src/hashmap.c) and the keyword table
      (src/lexer.h)

    A shallow embedding of the chained hash table of the Salam compiler
    front end and of the lexer's keyword table, with the properties the
    specification states about them.

    Conventions of the embedding.
    - A [const char*] is a [string]; the characters after the first NUL
      character (if any) are memory behind the terminator, which the C
      string functions never read.  The end of the Rocq string plays the
      role of the terminator as well.
    - [unsigned long] is 64 bits wide (LP64); its arithmetic wraps modulo
      [2 ^ 64] and the wrap-around is written out in [hash_function].
    - Whether plain [char] is signed is left to the C implementation; it is
      the section variable [plain_char_signed].
    - A [void*] is an address, [NULL] is address [0].
    - A bucket chain (entries linked through [next]) is the list of its
      entries from the head; the bucket array [data] is a list of chains.
    - The [size_t] counters [length] and [capacity] are integers.  Every
      entry and every bucket occupies memory of its own, and the allocators
      stop the process when memory runs out, so these counters do not wrap
      in a run that continues.
    - [(float)map->length / map->capacity >= 0.75] is evaluated in IEEE-754
      binary32 with round-to-nearest-even, as on targets that evaluate
      [float] expressions in their own format; see [float32_of_ratio]. *)

From Stdlib Require Import ZArith Lia Ascii String.
From stdpp Require Import gmap strings list fin_maps.

Local Open Scope Z_scope.

(** ** C strings *)

(** The byte held by a character, read as an [unsigned char]. *)
Definition byte_of_char (c : ascii) : Z := Z.of_N (N_of_ascii c).

(** The first character of the C string at [s]; [0] at the terminator. *)
Definition head_byte (s : string) : Z :=
  match s with
  | EmptyString => 0
  | String c _ => byte_of_char c
  end.

(** The characters of the C string at [s]: those before the terminator. *)
Fixpoint cstr (s : string) : string :=
  match s with
  | EmptyString => EmptyString
  | String c rest =>
      if byte_of_char c =? 0 then EmptyString else String c (cstr rest)
  end.

(** [strdup]: a fresh copy of the characters before the terminator. *)
Definition strdup (s : string) : string := cstr s.

(** [strcmp]: the difference of the first pair of bytes that differ, read
    as [unsigned char]; [0] when both strings end together. *)
Fixpoint strcmp (s1 s2 : string) : Z :=
  match s1 with
  | EmptyString => 0 - head_byte s2
  | String c1 rest1 =>
      if negb (byte_of_char c1 =? head_byte s2) then
        byte_of_char c1 - head_byte s2
      else if byte_of_char c1 =? 0 then 0
      else
        match s2 with
        | EmptyString => byte_of_char c1
        | String _ rest2 => strcmp rest1 rest2
        end
  end.

(** ** IEEE-754 binary32 arithmetic of the load-factor test

    Only non-negative values occur.  A value is kept as the exact fraction
    [f_num / f_den] it denotes, [f_den] a power of two.  Exponents stay far
    inside the range of the format for operands that are [size_t] values,
    so neither overflow nor subnormal numbers are modelled. *)

Record float32 := Float32 { f_num : Z; f_den : Z }.

(** The integer nearest to [n / d], ties to the even one ([0 <= n], [0 < d]). *)
Definition round_nearest_even (n d : Z) : Z :=
  let q := n / d in
  let r := n mod d in
  if 2 * r <? d then q
  else if d <? 2 * r then q + 1
  else if Z.even q then q else q + 1.

(** [2 ^ k] for [0 <= k], and [1] for a negative [k]: a fraction is scaled
    by [2 ^ k] by multiplying its numerator by [pow2_pos k] and its
    denominator by [pow2_pos (- k)]. *)
Definition pow2_pos (k : Z) : Z := 2 ^ Z.max 0 k.

(** The exponent [E] with [2 ^ E <= n / d < 2 ^ (E + 1)] ([0 < n], [0 < d]). *)
Definition floor_log2_ratio (n d : Z) : Z :=
  let k := Z.log2 n - Z.log2 d in
  if n * pow2_pos (- k) <? d * pow2_pos k then k - 1 else k.

(** [n / d] rounded to a significand of 24 bits: with [E] the exponent of
    [n / d], the nearest multiple of [2 ^ (E - 23)]. *)
Definition float32_of_ratio (n d : Z) : float32 :=
  if n =? 0 then Float32 0 1
  else
    let e := floor_log2_ratio n d - 23 in
    let m := round_nearest_even (n * pow2_pos (- e)) (d * pow2_pos e) in
    Float32 (m * pow2_pos e) (pow2_pos (- e)).

(** The conversion [(float) n] of a [size_t]. *)
Definition float32_of_size (n : Z) : float32 := float32_of_ratio n 1.

(** The quotient [a / b] of two [float]s. *)
Definition float32_div (a b : float32) : float32 :=
  float32_of_ratio (f_num a * f_den b) (f_den a * f_num b).

(** [a >= 0.75]: the [float] is widened to [double] without change and
    [0.75] is the fraction [3 / 4]. *)
Definition float32_ge_0_75 (a : float32) : bool :=
  3 * f_den a <=? 4 * f_num a.

(** [(float)length / capacity >= 0.75] *)
Definition load_factor_reached (length capacity : Z) : bool :=
  float32_ge_0_75 (float32_div (float32_of_size length) (float32_of_size capacity)).

(** ** The keyword table of the lexer (src/lexer.h) *)

Inductive token_type_t :=
| TOKEN_EOF
| TOKEN_LEFT_BRACE | TOKEN_RIGHT_BRACE | TOKEN_LEFT_BRACKET | TOKEN_RIGHT_BRACKET
| TOKEN_COLON | TOKEN_COMMA | TOKEN_LEFT_PAREN | TOKEN_RIGHT_PAREN
| TOKEN_PLUS | TOKEN_MINUS | TOKEN_MULTIPLY | TOKEN_DIVIDE | TOKEN_MOD
| TOKEN_POWER | TOKEN_ASSIGN | TOKEN_LESS | TOKEN_GREATER | TOKEN_NOT
| TOKEN_NOT_EQUAL | TOKEN_EQUAL | TOKEN_AND_AND | TOKEN_OR_OR
| TOKEN_AND_BIT | TOKEN_OR_BIT | TOKEN_LESS_EQUAL | TOKEN_GREATER_EQUAL
| TOKEN_INCREMENT | TOKEN_DECREMENT
| TOKEN_SHIFT_LEFT | TOKEN_SHIFT_RIGHT
| TOKEN_SHIFT_LEFT_ASSIGN | TOKEN_SHIFT_RIGHT_ASSIGN
| TOKEN_IDENTIFIER | TOKEN_STRING | TOKEN_NUMBER_INT | TOKEN_NUMBER_FLOAT
| TOKEN_BOOLEAN
| TOKEN_LAYOUT | TOKEN_IMPORT | TOKEN_FUNCTION | TOKEN_RETURN | TOKEN_PRINT
| TOKEN_IF | TOKEN_ELSE | TOKEN_WHILE | TOKEN_FOR | TOKEN_BREAK
| TOKEN_CONTINUE
| TOKEN_ERROR.

Record keyword_t := Keyword { name : string; type : token_type_t }.

Definition keywords : list keyword_t :=
  [ Keyword "layout" TOKEN_LAYOUT;
    Keyword "import" TOKEN_IMPORT;
    Keyword "fn" TOKEN_FUNCTION;
    Keyword "return" TOKEN_RETURN;
    Keyword "if" TOKEN_IF;
    Keyword "print" TOKEN_PRINT;
    Keyword "else" TOKEN_ELSE;
    Keyword "while" TOKEN_WHILE;
    Keyword "for" TOKEN_FOR;
    Keyword "break" TOKEN_BREAK;
    Keyword "continue" TOKEN_CONTINUE;
    Keyword "true" TOKEN_BOOLEAN;
    Keyword "false" TOKEN_BOOLEAN ].

(** Modelled from the spec: the body of [type_keyword], which lexer.h only
    declares (lexer.c is not among the sources).  The complete lexeme is
    compared with the names of the table in declaration order; the first
    name that is equal gives the token type, and a lexeme equal to none is
    a generic identifier. *)
Fixpoint type_keyword_in (table : list keyword_t) (lexeme : string)
  : token_type_t :=
  match table with
  | [] => TOKEN_IDENTIFIER
  | kw :: rest =>
      if strcmp lexeme (name kw) =? 0 then type kw
      else type_keyword_in rest lexeme
  end.

Definition type_keyword (lexeme : string) : token_type_t :=
  type_keyword_in keywords lexeme.

(** The integer of each enumerator of [token_type_t]: the character itself
    for the tokens of one character, [300] and the integers after it, in
    the order of the declaration, for the others. *)
Definition token_type_value (t : token_type_t) : Z :=
  match t with
  | TOKEN_EOF => -1
  | TOKEN_LEFT_BRACE => byte_of_char "{"
  | TOKEN_RIGHT_BRACE => byte_of_char "}"
  | TOKEN_LEFT_BRACKET => byte_of_char "["
  | TOKEN_RIGHT_BRACKET => byte_of_char "]"
  | TOKEN_COLON => byte_of_char ":"
  | TOKEN_COMMA => byte_of_char ","
  | TOKEN_LEFT_PAREN => byte_of_char "("
  | TOKEN_RIGHT_PAREN => byte_of_char ")"
  | TOKEN_PLUS => byte_of_char "+"
  | TOKEN_MINUS => byte_of_char "-"
  | TOKEN_MULTIPLY => byte_of_char "*"
  | TOKEN_DIVIDE => byte_of_char "/"
  | TOKEN_MOD => byte_of_char "%"
  | TOKEN_POWER => byte_of_char "^"
  | TOKEN_ASSIGN => byte_of_char "="
  | TOKEN_LESS => byte_of_char "<"
  | TOKEN_GREATER => byte_of_char ">"
  | TOKEN_NOT => byte_of_char "!"
  | TOKEN_NOT_EQUAL => 300
  | TOKEN_EQUAL => 301
  | TOKEN_AND_AND => 302
  | TOKEN_OR_OR => 303
  | TOKEN_AND_BIT => 304
  | TOKEN_OR_BIT => 305
  | TOKEN_LESS_EQUAL => 306
  | TOKEN_GREATER_EQUAL => 307
  | TOKEN_INCREMENT => 308
  | TOKEN_DECREMENT => 309
  | TOKEN_SHIFT_LEFT => 310
  | TOKEN_SHIFT_RIGHT => 311
  | TOKEN_SHIFT_LEFT_ASSIGN => 312
  | TOKEN_SHIFT_RIGHT_ASSIGN => 313
  | TOKEN_IDENTIFIER => 314
  | TOKEN_STRING => 315
  | TOKEN_NUMBER_INT => 316
  | TOKEN_NUMBER_FLOAT => 317
  | TOKEN_BOOLEAN => 318
  | TOKEN_LAYOUT => 319
  | TOKEN_IMPORT => 320
  | TOKEN_FUNCTION => 321
  | TOKEN_RETURN => 322
  | TOKEN_PRINT => 323
  | TOKEN_IF => 324
  | TOKEN_ELSE => 325
  | TOKEN_WHILE => 326
  | TOKEN_FOR => 327
  | TOKEN_BREAK => 328
  | TOKEN_CONTINUE => 329
  | TOKEN_ERROR => 330
  end.

(** The enumerators of [token_type_t], in the order of the declaration. *)
Definition token_types : list token_type_t :=
  [TOKEN_EOF;
   TOKEN_LEFT_BRACE; TOKEN_RIGHT_BRACE; TOKEN_LEFT_BRACKET; TOKEN_RIGHT_BRACKET;
   TOKEN_COLON; TOKEN_COMMA; TOKEN_LEFT_PAREN; TOKEN_RIGHT_PAREN;
   TOKEN_PLUS; TOKEN_MINUS; TOKEN_MULTIPLY; TOKEN_DIVIDE; TOKEN_MOD;
   TOKEN_POWER; TOKEN_ASSIGN; TOKEN_LESS; TOKEN_GREATER; TOKEN_NOT;
   TOKEN_NOT_EQUAL; TOKEN_EQUAL; TOKEN_AND_AND; TOKEN_OR_OR;
   TOKEN_AND_BIT; TOKEN_OR_BIT; TOKEN_LESS_EQUAL; TOKEN_GREATER_EQUAL;
   TOKEN_INCREMENT; TOKEN_DECREMENT;
   TOKEN_SHIFT_LEFT; TOKEN_SHIFT_RIGHT;
   TOKEN_SHIFT_LEFT_ASSIGN; TOKEN_SHIFT_RIGHT_ASSIGN;
   TOKEN_IDENTIFIER; TOKEN_STRING; TOKEN_NUMBER_INT; TOKEN_NUMBER_FLOAT;
   TOKEN_BOOLEAN;
   TOKEN_LAYOUT; TOKEN_IMPORT; TOKEN_FUNCTION; TOKEN_RETURN; TOKEN_PRINT;
   TOKEN_IF; TOKEN_ELSE; TOKEN_WHILE; TOKEN_FOR; TOKEN_BREAK;
   TOKEN_CONTINUE;
   TOKEN_ERROR].

(** ** The table *)

Definition ptr : Type := Z.
Definition NULL : ptr := 0.

Definition ULONG_BITS : Z := 64.

(** Reduction of an integer to the range of [unsigned long]. *)
Definition wrap_ulong (x : Z) : Z := x mod 2 ^ ULONG_BITS.

(** An entry of a chain; its [next] link is the rest of the list it is in. *)
Record hashmap_entry_t := Entry { key : string; value : ptr }.

(** The table.  Its two function references [print] and [destroy], which
    [hashmap_create] sets and none of the operations below reads, are left
    out. *)
Record hashmap_t := Hashmap {
  capacity : Z;
  length : Z;
  data : list (list hashmap_entry_t)
}.

(** A function given as [void ( *free_fn)(void* )]: libc's [free] or some
    other function, known by its address. *)
Inductive destructor := free | destructor_at (address : Z).

(** What an operation does outside the table. *)
Inductive event :=
| ev_call (f : destructor) (v : ptr)   (* free_fn(v) *)
| ev_strdup (k : string)               (* strdup(key) *)
| ev_release_key (k : string)          (* memory_destroy(entry->key) *)
| ev_release_entry (k : string)        (* memory_destroy(entry), the node of key k *)
| ev_release_data                      (* memory_destroy(map->data) *)
| ev_release_map.                      (* memory_destroy(map) *)

(** The outcome of a call on a table: what it returned, the table it
    left and what it did outside of it, in order. *)
Record result (A : Type) := Result {
  returned : A;
  table : hashmap_t;
  events : list event
}.
Arguments Result {A} _ _ _.
Arguments returned {A} _.
Arguments table {A} _.
Arguments events {A} _.

Section Hashmap.

(** Whether plain [char] is a signed type. *)
Variable plain_char_signed : bool.

(** The value of [int c = *str]. *)
Definition char_to_int (c : ascii) : Z :=
  let b := byte_of_char c in
  if plain_char_signed && (128 <=? b) then b - 256 else b.

(** The loop of [hash_function], from the current [hash]. *)
Fixpoint hash_loop (hash : Z) (str : string) : Z :=
  match str with
  | EmptyString => hash
  | String ch rest =>
      let c := char_to_int ch in
      if c =? 0 then hash
      else
        let shifted := wrap_ulong (Z.shiftl hash 5) in
        let summed := wrap_ulong (shifted + hash) in
        hash_loop (wrap_ulong (summed + wrap_ulong c)) rest
  end.

Definition hash_function (str : string) : Z := hash_loop 5381 str.

(** The capacity is to be at least one: with no bucket at all, the
    remainder [hash % map->capacity] of the operations has no value. *)
Definition hashmap_create (capacity : Z) : hashmap_t :=
  {| capacity := capacity; length := 0;
     data := replicate (Z.to_nat capacity) [] |}.

(** [map->data[index]]; the operations only use an [index] that is a
    remainder modulo the capacity, which is inside the array. *)
Definition bucket (data : list (list hashmap_entry_t)) (index : Z)
  : list hashmap_entry_t :=
  data !!! Z.to_nat index.

(** [map->data[index] = chain] *)
Definition set_bucket (data : list (list hashmap_entry_t)) (index : Z)
    (chain : list hashmap_entry_t) : list (list hashmap_entry_t) :=
  <[Z.to_nat index := chain]> data.

(** The first loop of [hashmap_put_custom]: the old value of the first
    entry whose key compares equal, and the chain with that entry's value
    replaced; [None] when the loop runs off the chain. *)
Fixpoint chain_overwrite (key0 : string) (value0 : ptr)
    (entry : list hashmap_entry_t) : option (ptr * list hashmap_entry_t) :=
  match entry with
  | [] => None
  | e :: next =>
      if strcmp (key e) key0 =? 0 then
        Some (value e, {| key := key e; value := value0 |} :: next)
      else
        match chain_overwrite key0 value0 next with
        | Some (old, next') => Some (old, e :: next')
        | None => None
        end
  end.

(** One step of the inner loop of the growth: [entry] is pushed on the
    front of the chain its key selects in [new_data]. *)
Definition rehash_entry (new_length : Z) (new_data : list (list hashmap_entry_t))
    (entry : hashmap_entry_t) : list (list hashmap_entry_t) :=
  let new_index := hash_function (key entry) mod new_length in
  set_bucket new_data new_index (entry :: bucket new_data new_index).

(** The inner loop of the growth, over one old chain from its head. *)
Definition rehash_chain (new_length : Z) (new_data : list (list hashmap_entry_t))
    (entry : list hashmap_entry_t) : list (list hashmap_entry_t) :=
  foldl (rehash_entry new_length) new_data entry.

(** The growth at the end of [hashmap_put_custom]. *)
Definition hashmap_grow (map : hashmap_t) : hashmap_t :=
  let new_length := capacity map * 2 in
  let new_data :=
    foldl (rehash_chain new_length)
      (replicate (Z.to_nat new_length) [])
      (take (Z.to_nat (capacity map)) (data map)) in
  {| capacity := new_length; length := length map; data := new_data |}.

(** The table of [hashmap_put_custom] once the new entry is linked and
    counted, before the load factor is looked at. *)
Definition hashmap_link_new (map : hashmap_t) (key0 : string) (value0 : ptr)
  : hashmap_t :=
  let index := hash_function key0 mod capacity map in
  let new_entry := {| key := strdup key0; value := value0 |} in
  {| capacity := capacity map;
     length := length map + 1;
     data := set_bucket (data map) index (new_entry :: bucket (data map) index) |}.

Definition hashmap_put_custom (map : hashmap_t) (key0 : string) (value0 : ptr)
    (free_fn : option destructor) : result unit :=
  let hash := hash_function key0 in
  let index := hash mod capacity map in
  match chain_overwrite key0 value0 (bucket (data map) index) with
  | Some (old, chain) =>
      Result tt
        {| capacity := capacity map; length := length map;
           data := set_bucket (data map) index chain |}
        (match free_fn with Some f => [ev_call f old] | None => [] end)
  | None =>
      let linked := hashmap_link_new map key0 value0 in
      if load_factor_reached (length linked) (capacity linked) then
        Result tt (hashmap_grow linked) [ev_strdup key0; ev_release_data]
      else
        Result tt linked [ev_strdup key0]
  end.

Definition hashmap_put (map : hashmap_t) (key0 : string) (value0 : ptr)
  : result unit :=
  hashmap_put_custom map key0 value0 (Some free).

(** The loop of [hashmap_get] over a chain. *)
Fixpoint chain_get (key0 : string) (entry : list hashmap_entry_t) : ptr :=
  match entry with
  | [] => NULL
  | e :: next =>
      if strcmp (key e) key0 =? 0 then value e else chain_get key0 next
  end.

Definition hashmap_get (map : hashmap_t) (key0 : string) : result ptr :=
  let hash := hash_function key0 in
  let index := hash mod capacity map in
  Result (chain_get key0 (bucket (data map) index)) map [].

(** The loop of [hashmap_has] over a chain. *)
Fixpoint chain_has (key0 : string) (entry : list hashmap_entry_t) : bool :=
  match entry with
  | [] => false
  | e :: next =>
      if strcmp (key e) key0 =? 0 then true else chain_has key0 next
  end.

Definition hashmap_has (map : hashmap_t) (key0 : string) : result bool :=
  let hash := hash_function key0 in
  let index := hash mod capacity map in
  Result (chain_has key0 (bucket (data map) index)) map [].

(** The loop of [hashmap_remove]: the entry found and the chain without
    it.  Unlinking at the head rewrites the bucket, unlinking further down
    rewrites the [next] of the entry before; both give the same list. *)
Fixpoint chain_remove (key0 : string) (entry : list hashmap_entry_t)
  : option (hashmap_entry_t * list hashmap_entry_t) :=
  match entry with
  | [] => None
  | e :: next =>
      if strcmp (key e) key0 =? 0 then Some (e, next)
      else
        match chain_remove key0 next with
        | Some (found, next') => Some (found, e :: next')
        | None => None
        end
  end.

Definition hashmap_remove (map : hashmap_t) (key0 : string) : result ptr :=
  let hash := hash_function key0 in
  let index := hash mod capacity map in
  match chain_remove key0 (bucket (data map) index) with
  | Some (found, chain) =>
      Result (value found)
        {| capacity := capacity map; length := length map - 1;
           data := set_bucket (data map) index chain |}
        [ev_release_key (key found); ev_release_entry (key found)]
  | None => Result NULL map []
  end.

(** The inner loop of [hashmap_destroy_custom] over one chain.  A call
    through a [NULL] function pointer has no defined behaviour: [None]. *)
Fixpoint destroy_chain (free_fn : option destructor)
    (entry : list hashmap_entry_t) : option (list event) :=
  match entry with
  | [] => Some []
  | e :: next =>
      match free_fn with
      | None => None
      | Some f =>
          match destroy_chain free_fn next with
          | Some evs =>
              Some (ev_release_key (key e) :: ev_call f (value e)
                      :: ev_release_entry (key e) :: evs)
          | None => None
          end
      end
  end.

(** The outer loop of [hashmap_destroy_custom], over the buckets in order. *)
Fixpoint destroy_buckets (free_fn : option destructor)
    (buckets : list (list hashmap_entry_t)) : option (list event) :=
  match buckets with
  | [] => Some []
  | entry :: rest =>
      match destroy_chain free_fn entry with
      | Some evs =>
          match destroy_buckets free_fn rest with
          | Some evs' => Some (evs ++ evs')
          | None => None
          end
      | None => None
      end
  end.

(** [map] may be [NULL] ([None]).  The bucket array of a table is never
    [NULL]: it comes from an allocator that does not return on failure. *)
Definition hashmap_destroy_custom (map : option hashmap_t)
    (free_fn : option destructor) : option (list event) :=
  match map with
  | None => Some []
  | Some m =>
      match destroy_buckets free_fn (take (Z.to_nat (capacity m)) (data m)) with
      | Some evs => Some (evs ++ [ev_release_data; ev_release_map])
      | None => None
      end
  end.

Definition hashmap_destroy (map : option hashmap_t) : option (list event) :=
  hashmap_destroy_custom map (Some free).

(** ** The table as a finite map, and its representation invariant *)

Definition entry_pair (e : hashmap_entry_t) : string * ptr := (key e, value e).

(** All entries, bucket after bucket, every chain from its head. *)
Definition entries (map : hashmap_t) : list hashmap_entry_t := concat (data map).

(** The finite map of a list of entries; the first entry of a key wins,
    as in a scan from the head. *)
Local Abbreviation lmap l := (list_to_map (entry_pair <$> l) : gmap string ptr).

(** The finite map a table stands for. *)
Definition contents (map : hashmap_t) : gmap string ptr :=
  lmap (entries map).

(** Keys stored in a chain are C strings without anything behind them. *)
Definition canonical (l : list hashmap_entry_t) : Prop :=
  Forall (fun e => cstr (key e) = key e) l.

(** Every entry of a bucket array of [n] buckets is in the bucket its key
    selects. *)
Definition indexed (n : Z) (buckets : list (list hashmap_entry_t)) : Prop :=
  forall (j : nat) chain e,
    buckets !! j = Some chain -> e ∈ chain ->
    hash_function (key e) mod n = Z.of_nat j.

(** What holds of every table between two calls. *)
Record hashmap_wf (map : hashmap_t) : Prop := {
  wf_capacity : 1 <= capacity map;
  wf_buckets : Z.of_nat (List.length (data map)) = capacity map;
  wf_index : forall (i : nat) chain e,
    data map !! i = Some chain -> e ∈ chain ->
    hash_function (key e) mod capacity map = Z.of_nat i;
  wf_keys : forall e, e ∈ entries map -> cstr (key e) = key e;
  wf_unique : NoDup (key <$> entries map);
  wf_length : length map = Z.of_nat (List.length (entries map))
}.

(** ** Histories of calls *)

Inductive operation :=
| op_put (k : string) (v : ptr)
| op_put_custom (k : string) (v : ptr) (free_fn : option destructor)
| op_remove (k : string).

Definition apply_operation (map : hashmap_t) (o : operation) : hashmap_t :=
  match o with
  | op_put k v => table (hashmap_put map k v)
  | op_put_custom k v free_fn => table (hashmap_put_custom map k v free_fn)
  | op_remove k => table (hashmap_remove map k)
  end.

(** The table after the calls [ops], made in order on [map]. *)
Definition run (map : hashmap_t) (ops : list operation) : hashmap_t :=
  foldl apply_operation map ops.

(** Two key arguments are the same key when their C strings are equal
    byte for byte. *)
Definition same_key (k1 k2 : string) : bool := bool_decide (cstr k1 = cstr k2).

(** What one call leaves on record for key [k]. *)
Definition record_operation (k : string) (seen : option ptr) (o : operation)
  : option ptr :=
  match o with
  | op_put k' v | op_put_custom k' v _ => if same_key k' k then Some v else seen
  | op_remove k' => if same_key k' k then None else seen
  end.

(** The value of the most recent put for [k] in the history [ops], unless
    [k] was never put or was removed since. *)
Definition last_written (k : string) (ops : list operation) : option ptr :=
  foldl (record_operation k) None ops.

(** The calls of the destructor, the keys released and the entry nodes
    released in a sequence of events. *)
Definition destructor_calls (evs : list event) : list (destructor * ptr) :=
  omap (fun ev => match ev with ev_call f v => Some (f, v) | _ => None end) evs.

Definition released_keys (evs : list event) : list string :=
  omap (fun ev => match ev with ev_release_key k => Some k | _ => None end) evs.

Definition released_entries (evs : list event) : list string :=
  omap (fun ev => match ev with ev_release_entry k => Some k | _ => None end) evs.

(** What [hashmap_destroy_custom] does for one entry, in order. *)
Definition entry_events (f : destructor) (e : hashmap_entry_t) : list event :=
  [ev_release_key (key e); ev_call f (value e); ev_release_entry (key e)].

(** The DJB2 step on a hash value and the value of a character. *)
Definition djb2_step (hash : Z) (c : Z) : Z := (hash * 33 + c) mod 2 ^ ULONG_BITS.

(** The hash in the words of the specification: [hash * 33 + byte] from
    [5381] over the bytes of the key, a byte being a number from 0 to 255,
    with the wrap-around of [unsigned long]. *)
Definition djb2_bytes (k : string) : Z :=
  foldl (fun hash ch => djb2_step hash (byte_of_char ch)) 5381
    (list_ascii_of_string (cstr k)).

(** A family of distinct keys: the binary digits of [p], lowest first. *)
Fixpoint key_of_pos (p : positive) : string :=
  match p with
  | xH => "1"
  | xO q => String "0" (key_of_pos q)
  | xI q => String "1" (key_of_pos q)
  end.

(** [hashmap_put] of the first [n] keys of the family, in order. *)
Definition numbered_puts (n : nat) : list operation :=
  (fun i => op_put (key_of_pos (Pos.of_succ_nat i)) (Z.of_nat (S i))) <$> seq 0 n.

(** A small table for examples: four buckets, the keys "a" and "b". *)
Definition example_ops : list operation := [op_put "a" 1; op_put "b" 2].

Definition example_table : hashmap_t := run (hashmap_create 4) example_ops.

(** ** Diagnostic dumps and the tables of layout attributes *)

(** The line feed of the format strings. *)
Definition LF : string := String (ascii_of_nat 10) EmptyString.

(** An argument of a call of [printf]. *)
Inductive printf_arg :=
| arg_size (n : Z)          (* for %zu *)
| arg_string (s : string)   (* for %s *)
| arg_pointer (p : ptr).    (* for %p *)

(** A function given as [void ( *print_fn)(void* )], known by its address. *)
Inductive printer := printer_at (address : Z).

(** What a dump does, in order: calls of [printf] with their format and
    arguments, and calls of a function on a value. *)
Inductive output :=
| out_printf (format : string) (args : list printf_arg)
| out_print (f : printer) (v : ptr).

(** The inner loop of [hashmap_print] over the chain of bucket [i]. *)
Definition print_chain (i : Z) (entry : list hashmap_entry_t) : list output :=
  (fun e => out_printf ("[%zu] Key: %s, Value: %p" ++ LF)
              [arg_size i; arg_string (key e); arg_pointer (value e)])
  <$> entry.

(** The outer loop of [hashmap_print], from bucket [i] on. *)
Fixpoint print_buckets (i : Z) (buckets : list (list hashmap_entry_t))
  : list output :=
  match buckets with
  | [] => []
  | entry :: rest => print_chain i entry ++ print_buckets (i + 1) rest
  end.

Definition hashmap_print (map : hashmap_t) : list output :=
  out_printf ("Hashmap Size: %zu" ++ LF) [arg_size (length map)]
  :: out_printf ("Hashmap Contents:" ++ LF) []
  :: print_buckets 0 (take (Z.to_nat (capacity map)) (data map)).

(** The inner loop of [hashmap_print_custom] over the chain of bucket [i].
    A call through a [NULL] function pointer has no defined behaviour:
    [None]. *)
Fixpoint print_chain_custom (print_fn : option printer) (i : Z)
    (entry : list hashmap_entry_t) : option (list output) :=
  match entry with
  | [] => Some []
  | e :: next =>
      match print_fn with
      | None => None
      | Some f =>
          match print_chain_custom print_fn i next with
          | Some outs =>
              Some (out_printf "[%zu] Key: %s, Value: "
                      [arg_size i; arg_string (key e)]
                    :: out_print f (value e)
                    :: out_printf LF []
                    :: outs)
          | None => None
          end
      end
  end.

(** The outer loop of [hashmap_print_custom], from bucket [i] on. *)
Fixpoint print_buckets_custom (print_fn : option printer) (i : Z)
    (buckets : list (list hashmap_entry_t)) : option (list output) :=
  match buckets with
  | [] => Some []
  | entry :: rest =>
      match print_chain_custom print_fn i entry with
      | Some outs =>
          match print_buckets_custom print_fn (i + 1) rest with
          | Some outs' => Some (outs ++ outs')
          | None => None
          end
      | None => None
      end
  end.

Definition hashmap_print_custom (map : hashmap_t) (print_fn : option printer)
  : option (list output) :=
  let header := out_printf ("Hashmap array: %zu" ++ LF) [arg_size (length map)] in
  if length map =? 0 then
    Some [header; out_printf ("Hashmap is empty" ++ LF) []]
  else
    match print_buckets_custom print_fn 0
            (take (Z.to_nat (capacity map)) (data map)) with
    | Some outs => Some (header :: outs)
    | None => None
    end.

(** The inner loop of [hashmap_print_layout_attribute] over the chain of
    bucket [i].  A value that is not [NULL] is printed by the function that
    its own [print] field refers to; [print_field v] is that reference,
    [None] when it is [NULL]. *)
Fixpoint print_chain_layout_attribute (print_field : ptr -> option printer)
    (i : Z) (entry : list hashmap_entry_t) : option (list output) :=
  match entry with
  | [] => Some []
  | e :: next =>
      let own :=
        if value e =? NULL then Some [out_printf ("NULL" ++ LF) []]
        else
          match print_field (value e) with
          | Some f => Some [out_print f (value e)]
          | None => None
          end in
      match own with
      | Some shown =>
          match print_chain_layout_attribute print_field i next with
          | Some outs =>
              Some (out_printf "[%zu] Key: %s, Value: "
                      [arg_size i; arg_string (key e)]
                    :: shown ++ outs)
          | None => None
          end
      | None => None
      end
  end.

Fixpoint print_buckets_layout_attribute (print_field : ptr -> option printer)
    (i : Z) (buckets : list (list hashmap_entry_t)) : option (list output) :=
  match buckets with
  | [] => Some []
  | entry :: rest =>
      match print_chain_layout_attribute print_field i entry with
      | Some outs =>
          match print_buckets_layout_attribute print_field (i + 1) rest with
          | Some outs' => Some (outs ++ outs')
          | None => None
          end
      | None => None
      end
  end.

Definition hashmap_print_layout_attribute
    (print_field : ptr -> option printer) (map : hashmap_t)
  : option (list output) :=
  let header := out_printf ("Hashmap length: %zu" ++ LF) [arg_size (length map)] in
  if length map =? 0 then
    Some [header; out_printf ("Hashmap is empty" ++ LF) []]
  else
    match print_buckets_layout_attribute print_field 0
            (take (Z.to_nat (capacity map)) (data map)) with
    | Some outs => Some (header :: outs)
    | None => None
    end.

(** The calls of a printing function in a dump, and the keys it shows. *)
Definition printer_calls (outs : list output) : list (printer * ptr) :=
  omap (fun o => match o with out_print f v => Some (f, v) | _ => None end) outs.

Definition printed_keys (outs : list output) : list string :=
  omap (fun o => match o with
                 | out_printf _ [_; arg_string k] => Some k
                 | out_printf _ [_; arg_string k; _] => Some k
                 | _ => None
                 end) outs.

(** What [hashmap_print_custom] does for one entry of bucket [i]. *)
Definition entry_outputs (f : printer) (i : Z) (e : hashmap_entry_t)
  : list output :=
  [out_printf "[%zu] Key: %s, Value: " [arg_size i; arg_string (key e)];
   out_print f (value e);
   out_printf LF []].

(** What [hashmap_print_layout_attribute] writes for one entry of bucket
    [i], when the [print] field of its value is not [NULL]. *)
Definition entry_outputs_layout_attribute
    (print_field : ptr -> option printer) (i : Z) (e : hashmap_entry_t)
  : list output :=
  out_printf "[%zu] Key: %s, Value: " [arg_size i; arg_string (key e)]
  :: (if value e =? NULL then [out_printf ("NULL" ++ LF) []]
      else match print_field (value e) with
           | Some f => [out_print f (value e)]
           | None => []
           end).

(** The loop of [hashmap_destroy_layout_attribute] over one chain.  The
    value of an entry, unless it is [NULL], is destroyed by the function
    that its own [destroy] field refers to; [destroy_field v] is that
    reference, read in the object at [v] when the loop comes to it, and
    [None] when it is [NULL].  The types of the values are declared
    outside of these sources. *)
Fixpoint destroy_chain_layout_attribute
    (destroy_field : ptr -> option destructor)
    (entry : list hashmap_entry_t) : option (list event) :=
  match entry with
  | [] => Some []
  | e :: next =>
      let own :=
        if value e =? NULL then Some []
        else
          match destroy_field (value e) with
          | Some f => Some [ev_call f (value e)]
          | None => None
          end in
      match own with
      | Some call =>
          match destroy_chain_layout_attribute destroy_field next with
          | Some evs =>
              Some (ev_release_key (key e) :: call
                      ++ ev_release_entry (key e) :: evs)
          | None => None
          end
      | None => None
      end
  end.

Fixpoint destroy_buckets_layout_attribute
    (destroy_field : ptr -> option destructor)
    (buckets : list (list hashmap_entry_t)) : option (list event) :=
  match buckets with
  | [] => Some []
  | entry :: rest =>
      match destroy_chain_layout_attribute destroy_field entry with
      | Some evs =>
          match destroy_buckets_layout_attribute destroy_field rest with
          | Some evs' => Some (evs ++ evs')
          | None => None
          end
      | None => None
      end
  end.

(** [hashmap_destroy_layout_attribute].  The functions
    [hashmap_destroy_layout_attribute_style_state] and
    [hashmap_layout_attribute_destroy] have the same loops for values of
    other types; their test of the key against [NULL] always succeeds, a
    key being a copy made by [strdup]. *)
Definition hashmap_destroy_layout_attribute
    (destroy_field : ptr -> option destructor) (map : option hashmap_t)
  : option (list event) :=
  match map with
  | None => Some []
  | Some m =>
      match destroy_buckets_layout_attribute destroy_field
              (take (Z.to_nat (capacity m)) (data m)) with
      | Some evs => Some (evs ++ [ev_release_data; ev_release_map])
      | None => None
      end
  end.

(** What [hashmap_destroy_layout_attribute] does for one entry, when the
    [destroy] field of its value is not [NULL]. *)
Definition entry_events_layout_attribute
    (destroy_field : ptr -> option destructor) (e : hashmap_entry_t)
  : list event :=
  ev_release_key (key e)
  :: (if value e =? NULL then []
      else match destroy_field (value e) with
           | Some f => [ev_call f (value e)]
           | None => []
           end)
  ++ [ev_release_entry (key e)].

(** The loops of [hashmap_has_any_sub_value_layout_attribute_style_state]
    and of [hashmap_layout_attribute_has_any_sub_value]: [true] at the
    first value that is not [NULL] and for which [has_any_sub_value]
    holds.  That function is [ast_layout_style_state_has_any_sub_value] in
    the first and [ast_layout_attribute_has_any_sub_value] in the second;
    both are defined outside of these sources. *)
Fixpoint chain_has_any_sub_value (has_any_sub_value : ptr -> bool)
    (entry : list hashmap_entry_t) : bool :=
  match entry with
  | [] => false
  | e :: next =>
      if negb (value e =? NULL) && has_any_sub_value (value e) then true
      else chain_has_any_sub_value has_any_sub_value next
  end.

Fixpoint buckets_has_any_sub_value (has_any_sub_value : ptr -> bool)
    (buckets : list (list hashmap_entry_t)) : bool :=
  match buckets with
  | [] => false
  | entry :: rest =>
      if chain_has_any_sub_value has_any_sub_value entry then true
      else buckets_has_any_sub_value has_any_sub_value rest
  end.

Definition hashmap_has_any_sub_value_layout_attribute_style_state
    (ast_layout_style_state_has_any_sub_value : ptr -> bool)
    (map : option hashmap_t) : bool :=
  match map with
  | None => false
  | Some m =>
      buckets_has_any_sub_value ast_layout_style_state_has_any_sub_value
        (take (Z.to_nat (capacity m)) (data m))
  end.

Definition hashmap_layout_attribute_has_any_sub_value
    (ast_layout_attribute_has_any_sub_value : ptr -> bool)
    (map : option hashmap_t) : bool :=
  match map with
  | None => false
  | Some m =>
      buckets_has_any_sub_value ast_layout_attribute_has_any_sub_value
        (take (Z.to_nat (capacity m)) (data m))
  end.

Lemma byte_of_char_range c : 0 <= byte_of_char c < 256.
Proof.
  unfold byte_of_char.
  pose proof (N_ascii_bounded c) as Hb. lia.
Qed.

Lemma byte_of_char_inj c1 c2 : byte_of_char c1 = byte_of_char c2 -> c1 = c2.
Proof.
  unfold byte_of_char. intros H.
  apply N2Z.inj in H.
  rewrite <- (ascii_N_embedding c1), <- (ascii_N_embedding c2).
  by rewrite H.
Qed.

Lemma cstr_idemp s : cstr (cstr s) = cstr s.
Proof.
  induction s as [|c s IH]; simpl; [done|].
  destruct (byte_of_char c =? 0) eqn:E; simpl; [done|].
  by rewrite E, IH.
Qed.

Lemma strcmp_0_iff s1 s2 : strcmp s1 s2 = 0 <-> cstr s1 = cstr s2.
Proof.
  revert s2. induction s1 as [|c1 s1 IH]; intros s2.
  - simpl. destruct s2 as [|c2 s2]; simpl; [done|].
    pose proof (byte_of_char_range c2).
    destruct (byte_of_char c2 =? 0) eqn:E; split; intros; try done; lia.
  - simpl. destruct s2 as [|c2 s2]; simpl.
    + pose proof (byte_of_char_range c1).
      destruct (byte_of_char c1 =? 0) eqn:E; simpl; [done|].
      split; [lia|done].
    + destruct (byte_of_char c1 =? byte_of_char c2) eqn:E; simpl.
      * apply Z.eqb_eq in E. apply byte_of_char_inj in E as ->.
        destruct (byte_of_char c2 =? 0); [done|].
        rewrite IH. split; [by intros ->|by intros [= ->]].
      * apply Z.eqb_neq in E.
        destruct (byte_of_char c1 =? 0) eqn:E1, (byte_of_char c2 =? 0) eqn:E2;
          split; try lia; try done.
        intros [= -> _]. done.
Qed.

(** ** The hash only reads the C string *)

Lemma char_to_int_0 c : (char_to_int c =? 0) = (byte_of_char c =? 0).
Proof.
  unfold char_to_int. pose proof (byte_of_char_range c).
  destruct plain_char_signed; simpl; [|done].
  destruct (128 <=? byte_of_char c) eqn:E; [|done].
  apply Z.leb_le in E.
  transitivity false; [|symmetry]; apply Z.eqb_neq; lia.
Qed.

Lemma hash_loop_cstr h s : hash_loop h (cstr s) = hash_loop h s.
Proof.
  revert h. induction s as [|c s IH]; intros h; simpl; [done|].
  destruct (byte_of_char c =? 0) eqn:E; simpl; rewrite char_to_int_0, E; auto.
Qed.

Lemma hash_function_cstr s : hash_function (cstr s) = hash_function s.
Proof. apply hash_loop_cstr. Qed.

(** ** Chains *)

Lemma pairs_keys (l : list hashmap_entry_t) : (entry_pair <$> l).*1 = key <$> l.
Proof. rewrite <- list_fmap_compose. done. Qed.

Lemma lmap_cons e (l : list hashmap_entry_t) :
  lmap (e :: l) = <[key e := value e]> (lmap l).
Proof. done. Qed.

Lemma lmap_app (l1 l2 : list hashmap_entry_t) :
  lmap (l1 ++ l2) = lmap l1 ∪ lmap l2.
Proof. rewrite fmap_app. apply list_to_map_app. Qed.

Lemma lmap_perm (l1 l2 : list hashmap_entry_t) :
  NoDup (key <$> l1) -> l1 ≡ₚ l2 -> lmap l1 = lmap l2.
Proof.
  intros Hnd Hp. apply list_to_map_proper.
  - by rewrite pairs_keys.
  - by apply fmap_Permutation.
Qed.

Lemma lmap_lookup_None (l : list hashmap_entry_t) k :
  k ∉ key <$> l -> lmap l !! k = None.
Proof. intros H. apply not_elem_of_list_to_map_1. by rewrite pairs_keys. Qed.

Lemma lmap_lookup_None_inv (l : list hashmap_entry_t) k :
  lmap l !! k = None -> k ∉ key <$> l.
Proof. intros H. rewrite <- pairs_keys. by apply not_elem_of_list_to_map_2. Qed.

Lemma key_test e k :
  cstr (key e) = key e ->
  (strcmp (key e) k =? 0) = bool_decide (key e = cstr k).
Proof.
  intros Hc. case_bool_decide as H.
  - apply Z.eqb_eq, strcmp_0_iff. by rewrite Hc.
  - apply Z.eqb_neq. rewrite strcmp_0_iff, Hc. done.
Qed.

(** Case analysis on the test [strcmp (key e) k == 0] of the loops. *)
Ltac key_cases e k H :=
  destruct (decide (key e = cstr k)) as [H|H];
  [ rewrite (bool_decide_eq_true_2 _ H) in *
  | rewrite (bool_decide_eq_false_2 _ H) in * ].

Lemma chain_get_lookup k chain :
  canonical chain ->
  chain_get k chain = default NULL (lmap chain !! cstr k).
Proof.
  induction 1 as [|e chain He _ IH]; [done|].
  simpl chain_get. rewrite key_test by done. rewrite lmap_cons.
  key_cases e k Hk.
  - by rewrite Hk, lookup_insert_eq.
  - by rewrite lookup_insert_ne.
Qed.

Lemma chain_has_lookup k chain :
  canonical chain ->
  chain_has k chain = bool_decide (is_Some (lmap chain !! cstr k)).
Proof.
  induction 1 as [|e chain He _ IH].
  - simpl. rewrite lookup_empty. symmetry. apply bool_decide_eq_false.
    by intros [? ?].
  - simpl chain_has. rewrite key_test by done. rewrite lmap_cons.
    key_cases e k Hk.
    + rewrite Hk, lookup_insert_eq. symmetry. by apply bool_decide_eq_true.
    + by rewrite lookup_insert_ne.
Qed.

Lemma chain_overwrite_Some k v chain old chain' :
  canonical chain ->
  chain_overwrite k v chain = Some (old, chain') ->
  exists pre post,
    chain = pre ++ Entry (cstr k) old :: post /\
    chain' = pre ++ Entry (cstr k) v :: post /\
    cstr k ∉ key <$> pre.
Proof.
  intros Hc. revert old chain'.
  induction Hc as [|e chain He _ IH]; intros old chain' H; [done|].
  simpl in H. rewrite key_test in H by done.
  key_cases e k Hk.
  - injection H as <- <-. exists [], chain. rewrite <- Hk.
    destruct e; simpl. split_and!; [done|done|]. apply not_elem_of_nil.
  - destruct (chain_overwrite k v chain) as [[old' next']|] eqn:E; [|done].
    injection H as <- <-.
    destruct (IH _ _ eq_refl) as (pre & post & -> & -> & Hpre).
    exists (e :: pre), post. split_and!; [done|done|].
    rewrite fmap_cons, not_elem_of_cons. split; [congruence|done].
Qed.

Lemma chain_overwrite_None k v chain :
  canonical chain ->
  chain_overwrite k v chain = None <-> cstr k ∉ key <$> chain.
Proof.
  induction 1 as [|e chain He _ IH]; simpl.
  - split; [intros _; apply not_elem_of_nil|done].
  - rewrite key_test by done. rewrite not_elem_of_cons.
    key_cases e k Hk.
    + split; [done|]. intros [? _]. congruence.
    + destruct (chain_overwrite k v chain) as [[? ?]|].
      * split; [done|]. intros [_ H']. by apply IH in H'.
      * split; [|done]. intros _. split; [congruence|by apply IH].
Qed.

Lemma chain_remove_Some k chain found chain' :
  canonical chain ->
  chain_remove k chain = Some (found, chain') ->
  exists pre post,
    chain = pre ++ found :: post /\
    chain' = pre ++ post /\
    key found = cstr k /\
    cstr k ∉ key <$> pre.
Proof.
  intros Hc. revert found chain'.
  induction Hc as [|e chain He _ IH]; intros found chain' H; [done|].
  simpl in H. rewrite key_test in H by done.
  key_cases e k Hk.
  - injection H as <- <-. exists [], chain.
    split_and!; [done|done|done|]. apply not_elem_of_nil.
  - destruct (chain_remove k chain) as [[found' next']|] eqn:E; [|done].
    injection H as <- <-.
    destruct (IH _ _ eq_refl) as (pre & post & -> & -> & Hf & Hpre).
    exists (e :: pre), post. split_and!; [done|done|done|].
    rewrite fmap_cons, not_elem_of_cons. split; [congruence|done].
Qed.

Lemma chain_remove_None k chain :
  canonical chain ->
  chain_remove k chain = None <-> cstr k ∉ key <$> chain.
Proof.
  induction 1 as [|e chain He _ IH]; simpl.
  - split; [intros _; apply not_elem_of_nil|done].
  - rewrite key_test by done. rewrite not_elem_of_cons.
    key_cases e k Hk.
    + split; [done|]. intros [? _]. congruence.
    + destruct (chain_remove k chain) as [[? ?]|].
      * split; [done|]. intros [_ H']. by apply IH in H'.
      * split; [|done]. intros _. split; [congruence|by apply IH].
Qed.

(** ** Buckets *)

Lemma foldl_app {A B} (f : A -> B -> A) (l1 l2 : list B) (a : A) :
  foldl f a (l1 ++ l2) = foldl f (foldl f a l1) l2.
Proof. revert a. induction l1 as [|x l1 IH]; intros a; simpl; auto. Qed.

Lemma elem_of_concat {A} (x : A) (ls : list (list A)) :
  x ∈ concat ls <-> exists l, l ∈ ls /\ x ∈ l.
Proof.
  rewrite list_elem_of_In, in_concat.
  split; intros (l & H1 & H2); exists l; by rewrite ?list_elem_of_In in *.
Qed.

Lemma bucket_index_range m k :
  hashmap_wf m -> 0 <= hash_function k mod capacity m < capacity m.
Proof. intros Hwf. apply Z.mod_pos_bound. pose proof (wf_capacity _ Hwf). lia. Qed.

(** The buckets before and after the one a key selects. *)
Lemma wf_focus m k :
  hashmap_wf m ->
  let index := hash_function k mod capacity m in
  exists pre post,
    data m = pre ++ bucket (data m) index :: post /\
    Z.of_nat (List.length pre) = index /\
    forall chain, set_bucket (data m) index chain = pre ++ chain :: post.
Proof.
  intros Hwf index.
  pose proof (bucket_index_range m k Hwf) as Hr. fold index in Hr.
  pose proof (wf_buckets _ Hwf) as Hb.
  assert (Hlt : (Z.to_nat index < List.length (data m))%nat) by lia.
  exists (take (Z.to_nat index) (data m)), (drop (S (Z.to_nat index)) (data m)).
  split_and!.
  - symmetry. apply take_drop_middle. unfold bucket.
    by apply list_lookup_lookup_total_lt.
  - rewrite length_take. lia.
  - intros chain. unfold set_bucket. by apply insert_take_drop.
Qed.

Lemma entries_focus m pre chain post :
  data m = pre ++ chain :: post ->
  entries m ≡ₚ chain ++ (concat pre ++ concat post).
Proof.
  unfold entries. intros ->. rewrite concat_app. simpl.
  apply Permutation_app_swap_app.
Qed.

(** Entries outside the bucket of a key have other keys. *)
Lemma wf_others m pre chain post e :
  hashmap_wf m ->
  data m = pre ++ chain :: post ->
  e ∈ concat pre ++ concat post ->
  hash_function (key e) mod capacity m <> Z.of_nat (List.length pre) /\
  cstr (key e) = key e.
Proof.
  intros Hwf Hd He. split.
  - apply elem_of_app in He as [He|He];
      apply elem_of_concat in He as (l & Hl & He);
      apply list_elem_of_lookup in Hl as [j Hj].
    + pose proof (lookup_lt_Some _ _ _ Hj) as Hlt.
      rewrite (wf_index _ Hwf j l e); [lia| |done].
      rewrite Hd. by rewrite lookup_app_l.
    + rewrite (wf_index _ Hwf (List.length pre + S j) l e); [lia| |done].
      rewrite Hd. rewrite lookup_app_r by lia.
      replace (List.length pre + S j - List.length pre)%nat with (S j) by lia.
      done.
  - apply (wf_keys _ Hwf). rewrite (entries_focus m pre chain post Hd).
    apply elem_of_app. by right.
Qed.

Lemma wf_bucket m pre chain post e :
  hashmap_wf m ->
  data m = pre ++ chain :: post ->
  e ∈ chain ->
  hash_function (key e) mod capacity m = Z.of_nat (List.length pre) /\
  cstr (key e) = key e.
Proof.
  intros Hwf Hd He. split.
  - apply (wf_index _ Hwf _ chain); [|done].
    rewrite Hd. by apply list_lookup_middle.
  - apply (wf_keys _ Hwf). rewrite (entries_focus m pre chain post Hd).
    apply elem_of_app. by left.
Qed.

Lemma wf_bucket_canonical m pre chain post :
  hashmap_wf m -> data m = pre ++ chain :: post -> canonical chain.
Proof.
  intros Hwf Hd. apply Forall_forall. intros e He.
  by apply (wf_bucket m pre chain post e Hwf Hd).
Qed.

(** Putting another chain in the place of one bucket. *)
Lemma wf_refocus m pre old post chain' len' :
  hashmap_wf m ->
  data m = pre ++ old :: post ->
  (forall e, e ∈ chain' ->
     hash_function (key e) mod capacity m = Z.of_nat (List.length pre) /\
     cstr (key e) = key e) ->
  NoDup (key <$> chain' ++ (concat pre ++ concat post)) ->
  len' = Z.of_nat (List.length (chain' ++ (concat pre ++ concat post))) ->
  hashmap_wf {| capacity := capacity m; length := len';
                data := pre ++ chain' :: post |}.
Proof.
  intros Hwf Hd Hchain Hnd Hlen.
  assert (Hperm : concat (pre ++ chain' :: post)
                    ≡ₚ chain' ++ (concat pre ++ concat post)).
  { rewrite concat_app. simpl. apply Permutation_app_swap_app. }
  constructor; simpl.
  - apply (wf_capacity _ Hwf).
  - rewrite <- (wf_buckets _ Hwf), Hd, !length_app. simpl. done.
  - intros i chain e Hi He.
    destruct (decide (i = List.length pre)) as [->|Hne].
    + rewrite list_lookup_middle in Hi by done. injection Hi as <-.
      by apply Hchain.
    + apply (wf_index _ Hwf i chain e); [|done]. rewrite Hd.
      rewrite <- Hi.
      destruct (decide (i < List.length pre)%nat).
      * by rewrite !lookup_app_l.
      * rewrite !lookup_app_r by lia.
        destruct (i - List.length pre)%nat eqn:E; [lia|done].
  - intros e He. unfold entries in He. simpl in He. rewrite Hperm in He.
    apply elem_of_app in He as [He|He]; [by apply Hchain|].
    by apply (wf_others m pre old post e).
  - unfold entries. simpl. by rewrite Hperm.
  - unfold entries. simpl. by rewrite Hperm.
Qed.

Lemma contents_focus m pre chain post :
  hashmap_wf m ->
  data m = pre ++ chain :: post ->
  contents m = lmap (chain ++ (concat pre ++ concat post)).
Proof.
  intros Hwf Hd. unfold contents. apply lmap_perm.
  - apply (wf_unique _ Hwf).
  - by apply entries_focus.
Qed.

(** A key can only be in the bucket it selects. *)
Lemma key_not_in_others m k pre post :
  hashmap_wf m ->
  data m = pre ++ bucket (data m) (hash_function k mod capacity m) :: post ->
  Z.of_nat (List.length pre) = hash_function k mod capacity m ->
  cstr k ∉ key <$> concat pre ++ concat post.
Proof.
  intros Hwf Hd Hi Hin.
  apply list_elem_of_fmap in Hin as (e & Hk & He).
  destruct (wf_others m _ _ _ e Hwf Hd He) as [Hne _].
  apply Hne. rewrite <- Hk, hash_function_cstr. done.
Qed.

Lemma bucket_lookup m k :
  hashmap_wf m ->
  lmap (bucket (data m) (hash_function k mod capacity m)) !! cstr k
  = contents m !! cstr k.
Proof.
  intros Hwf.
  destruct (wf_focus m k Hwf) as (pre & post & Hd & Hi & _).
  rewrite (contents_focus m _ _ _ Hwf Hd), lmap_app.
  symmetry. apply lookup_union_l, lmap_lookup_None.
  by apply (key_not_in_others m).
Qed.

Lemma bucket_canonical m k :
  hashmap_wf m ->
  canonical (bucket (data m) (hash_function k mod capacity m)).
Proof.
  intros Hwf. destruct (wf_focus m k Hwf) as (pre & post & Hd & _).
  by apply (wf_bucket_canonical m pre _ post).
Qed.

(** ** Growth *)

Lemma concat_replicate_nil {A} (n : nat) : concat (replicate n ([] : list A)) = [].
Proof. induction n as [|n IH]; simpl; auto. Qed.

Lemma indexed_replicate_nil n (len : nat) : indexed n (replicate len []).
Proof.
  intros j chain e Hj He. apply lookup_replicate in Hj as [-> _].
  by apply elem_of_nil in He.
Qed.

Lemma rehash_entry_spec n buckets e :
  0 < n -> Z.of_nat (List.length buckets) = n -> indexed n buckets ->
  Z.of_nat (List.length (rehash_entry n buckets e)) = n /\
  indexed n (rehash_entry n buckets e) /\
  concat (rehash_entry n buckets e) ≡ₚ e :: concat buckets.
Proof.
  intros Hn Hlen Hidx. unfold rehash_entry, set_bucket, bucket.
  set (j := hash_function (key e) mod n).
  assert (Hj : 0 <= j < n) by (apply Z.mod_pos_bound; lia).
  assert (Hlt : (Z.to_nat j < List.length buckets)%nat) by lia.
  split_and!.
  - by rewrite length_insert.
  - intros i chain e' Hi He'.
    destruct (decide (i = Z.to_nat j)) as [->|Hne].
    + rewrite list_lookup_insert_eq in Hi by done. injection Hi as <-.
      apply elem_of_cons in He' as [->|He']; [fold j; lia|].
      apply (Hidx _ (buckets !!! Z.to_nat j)); [|done].
      by apply list_lookup_lookup_total_lt.
    + rewrite list_lookup_insert_ne in Hi by done. by apply (Hidx _ chain).
  - rewrite insert_take_drop by done.
    assert (Hc : concat buckets
                 = concat (take (Z.to_nat j) buckets)
                   ++ buckets !!! Z.to_nat j
                   ++ concat (drop (S (Z.to_nat j)) buckets)).
    { rewrite <- (take_drop_middle buckets (Z.to_nat j) (buckets !!! Z.to_nat j))
        at 1 by (by apply list_lookup_lookup_total_lt).
      by rewrite concat_app. }
    rewrite Hc, concat_app. simpl.
    by rewrite <- Permutation_middle.
Qed.

Lemma rehash_chain_spec n buckets chain :
  0 < n -> Z.of_nat (List.length buckets) = n -> indexed n buckets ->
  Z.of_nat (List.length (rehash_chain n buckets chain)) = n /\
  indexed n (rehash_chain n buckets chain) /\
  concat (rehash_chain n buckets chain) ≡ₚ chain ++ concat buckets.
Proof.
  intros Hn. revert buckets.
  induction chain as [|e chain IH]; intros buckets Hlen Hidx; [done|].
  destruct (rehash_entry_spec n buckets e Hn Hlen Hidx) as (H1 & H2 & H3).
  destruct (IH _ H1 H2) as (H4 & H5 & H6).
  split_and!; [done|done|].
  unfold rehash_chain in *. simpl. rewrite H6, H3.
  by rewrite <- Permutation_middle.
Qed.

Lemma rehash_buckets_spec n buckets old :
  0 < n -> Z.of_nat (List.length buckets) = n -> indexed n buckets ->
  Z.of_nat (List.length (foldl (rehash_chain n) buckets old)) = n /\
  indexed n (foldl (rehash_chain n) buckets old) /\
  concat (foldl (rehash_chain n) buckets old) ≡ₚ concat old ++ concat buckets.
Proof.
  intros Hn. revert buckets.
  induction old as [|chain old IH]; intros buckets Hlen Hidx; [done|].
  destruct (rehash_chain_spec n buckets chain Hn Hlen Hidx) as (H1 & H2 & H3).
  destruct (IH _ H1 H2) as (H4 & H5 & H6).
  split_and!; [done|done|].
  simpl. rewrite H6, H3.
  rewrite (assoc (++)). f_equiv. apply Permutation_app_comm.
Qed.

Lemma hashmap_grow_entries m :
  hashmap_wf m -> entries (hashmap_grow m) ≡ₚ entries m.
Proof.
  intros Hwf. pose proof (wf_capacity _ Hwf). pose proof (wf_buckets _ Hwf).
  unfold entries, hashmap_grow. simpl.
  rewrite take_ge by lia.
  destruct (rehash_buckets_spec (capacity m * 2)
              (replicate (Z.to_nat (capacity m * 2)) []) (data m))
    as (_ & _ & ->).
  - lia.
  - rewrite length_replicate. lia.
  - apply indexed_replicate_nil.
  - by rewrite concat_replicate_nil, app_nil_r.
Qed.

Lemma hashmap_grow_wf m : hashmap_wf m -> hashmap_wf (hashmap_grow m).
Proof.
  intros Hwf. pose proof (hashmap_grow_entries m Hwf) as Hperm.
  pose proof (wf_capacity _ Hwf). pose proof (wf_buckets _ Hwf).
  destruct (rehash_buckets_spec (capacity m * 2)
              (replicate (Z.to_nat (capacity m * 2)) [])
              (take (Z.to_nat (capacity m)) (data m)))
    as (H1 & H2 & _).
  { lia. }
  { rewrite length_replicate. lia. }
  { apply indexed_replicate_nil. }
  constructor.
  - simpl. lia.
  - done.
  - done.
  - intros e He. rewrite Hperm in He. by apply (wf_keys _ Hwf).
  - rewrite Hperm. apply (wf_unique _ Hwf).
  - rewrite Hperm. apply (wf_length _ Hwf).
Qed.

Lemma hashmap_grow_contents m :
  hashmap_wf m -> contents (hashmap_grow m) = contents m.
Proof.
  intros Hwf. unfold contents. symmetry. apply lmap_perm.
  - apply (wf_unique _ Hwf).
  - symmetry. by apply hashmap_grow_entries.
Qed.

(** ** The operations, on the finite map *)

Lemma hashmap_create_wf c : 1 <= c -> hashmap_wf (hashmap_create c).
Proof.
  intros Hc. constructor; unfold entries; simpl.
  - done.
  - rewrite length_replicate. lia.
  - intros i chain e Hi He. apply lookup_replicate in Hi as [-> _].
    by apply elem_of_nil in He.
  - intros e He. rewrite concat_replicate_nil in He. by apply elem_of_nil in He.
  - rewrite concat_replicate_nil. constructor.
  - by rewrite concat_replicate_nil.
Qed.

Lemma hashmap_create_contents c : contents (hashmap_create c) = ∅.
Proof. unfold contents, entries. simpl. by rewrite concat_replicate_nil. Qed.

Lemma hashmap_get_contents m k :
  hashmap_wf m ->
  returned (hashmap_get m k) = default NULL (contents m !! cstr k).
Proof.
  intros Hwf. simpl.
  rewrite chain_get_lookup by (by apply bucket_canonical).
  by rewrite bucket_lookup.
Qed.

Lemma hashmap_has_contents m k :
  hashmap_wf m ->
  returned (hashmap_has m k) = bool_decide (is_Some (contents m !! cstr k)).
Proof.
  intros Hwf. simpl.
  rewrite chain_has_lookup by (by apply bucket_canonical).
  by rewrite bucket_lookup.
Qed.

Lemma lmap_middle front e back (rest : list hashmap_entry_t) :
  NoDup (key <$> (front ++ e :: back) ++ rest) ->
  (key e ∉ key <$> front ++ back ++ rest) /\
  NoDup (key <$> front ++ back ++ rest) /\
  lmap ((front ++ e :: back) ++ rest)
  = <[key e := value e]> (lmap (front ++ back ++ rest)).
Proof.
  intros Hnd.
  assert (Hp : (front ++ e :: back) ++ rest ≡ₚ e :: (front ++ back ++ rest)).
  { rewrite <- (assoc (++)). simpl. by rewrite <- Permutation_middle. }
  rewrite (lmap_perm _ _ Hnd Hp). rewrite Hp in Hnd.
  rewrite fmap_cons in Hnd. apply NoDup_cons in Hnd as [? ?]. done.
Qed.

(** *** Overwriting *)

Lemma hashmap_put_custom_present m k v free_fn old :
  hashmap_wf m -> contents m !! cstr k = Some old ->
  let index := hash_function k mod capacity m in
  exists front back,
    bucket (data m) index = front ++ Entry (cstr k) old :: back /\
    (cstr k ∉ key <$> front) /\
    hashmap_put_custom m k v free_fn =
      Result tt
        {| capacity := capacity m; length := length m;
           data := set_bucket (data m) index
                     (front ++ Entry (cstr k) v :: back) |}
        (match free_fn with Some f => [ev_call f old] | None => [] end).
Proof.
  intros Hwf Hold index.
  pose proof (bucket_canonical m k Hwf) as Hcan. fold index in Hcan.
  pose proof (bucket_lookup m k Hwf) as Hbl. fold index in Hbl.
  rewrite Hold in Hbl.
  unfold hashmap_put_custom. fold index.
  destruct (chain_overwrite k v (bucket (data m) index))
    as [[old' chain']|] eqn:E.
  - destruct (chain_overwrite_Some _ _ _ _ _ Hcan E)
      as (front & back & Hb & -> & Hfront).
    assert (old' = old) as ->.
    { rewrite Hb, lmap_app, lookup_union_r, lmap_cons in Hbl
        by (by apply lmap_lookup_None).
      simpl in Hbl. rewrite lookup_insert_eq in Hbl. congruence. }
    by exists front, back.
  - apply chain_overwrite_None in E; [|done].
    apply lmap_lookup_None in E. congruence.
Qed.

Lemma overwrite_wf m k v old front back :
  hashmap_wf m ->
  let index := hash_function k mod capacity m in
  bucket (data m) index = front ++ Entry (cstr k) old :: back ->
  let m' := {| capacity := capacity m; length := length m;
               data := set_bucket (data m) index
                         (front ++ Entry (cstr k) v :: back) |} in
  hashmap_wf m' /\ contents m' = <[cstr k := v]> (contents m).
Proof.
  intros Hwf index Hb m'.
  destruct (wf_focus m k Hwf) as (pre & post & Hd & Hi & Hset).
  fold index in Hd, Hi, Hset. subst m'. rewrite Hset.
  pose proof (contents_focus m _ _ _ Hwf Hd) as Hc.
  pose proof (wf_unique _ Hwf) as Hnd.
  pose proof (wf_length _ Hwf) as Hlen.
  rewrite (entries_focus m _ _ _ Hd) in Hnd, Hlen.
  rewrite Hb in Hd, Hc, Hnd, Hlen.
  set (rest := concat pre ++ concat post) in *.
  assert (Hnd' : NoDup (key <$> (front ++ Entry (cstr k) v :: back) ++ rest)).
  { revert Hnd. by rewrite !fmap_app, !fmap_cons. }
  destruct (lmap_middle _ _ _ _ Hnd) as (_ & _ & Hl).
  destruct (lmap_middle _ _ _ _ Hnd') as (_ & _ & Hl').
  assert (Hwf' : hashmap_wf
            {| capacity := capacity m; length := length m;
               data := pre ++ (front ++ Entry (cstr k) v :: back) :: post |}).
  { apply (wf_refocus m pre _ post _ _ Hwf Hd); [|done|].
    - intros e He. rewrite Hi.
      assert (e = Entry (cstr k) v \/ e ∈ front ++ Entry (cstr k) old :: back)
        as [->|He'].
      { rewrite !elem_of_app, !elem_of_cons in *. tauto. }
      + simpl. split; [by rewrite hash_function_cstr|apply cstr_idemp].
      + rewrite <- Hi. by apply (wf_bucket m pre _ post e Hwf Hd).
    - fold rest. rewrite Hlen. rewrite !length_app. simpl. done. }
  split; [done|].
  rewrite (contents_focus _ pre _ post Hwf' eq_refl). fold rest.
  rewrite Hl', Hc, Hl. simpl. by rewrite insert_insert_eq.
Qed.

(** *** Inserting a new key *)

Lemma hashmap_put_custom_absent m k v free_fn :
  hashmap_wf m -> contents m !! cstr k = None ->
  hashmap_put_custom m k v free_fn =
    if load_factor_reached (length m + 1) (capacity m) then
      Result tt (hashmap_grow (hashmap_link_new m k v))
        [ev_strdup k; ev_release_data]
    else Result tt (hashmap_link_new m k v) [ev_strdup k].
Proof.
  intros Hwf Hnone.
  pose proof (bucket_canonical m k Hwf) as Hcan.
  pose proof (bucket_lookup m k Hwf) as Hbl. rewrite Hnone in Hbl.
  apply lmap_lookup_None_inv in Hbl.
  apply (chain_overwrite_None k v _ Hcan) in Hbl.
  unfold hashmap_put_custom. by rewrite Hbl.
Qed.

Lemma hashmap_link_new_wf m k v :
  hashmap_wf m -> contents m !! cstr k = None ->
  hashmap_wf (hashmap_link_new m k v) /\
  contents (hashmap_link_new m k v) = <[cstr k := v]> (contents m).
Proof.
  intros Hwf Hnone. unfold hashmap_link_new.
  destruct (wf_focus m k Hwf) as (pre & post & Hd & Hi & Hset).
  rewrite Hset.
  set (index := hash_function k mod capacity m) in *.
  pose proof (contents_focus m _ _ _ Hwf Hd) as Hc.
  pose proof (wf_unique _ Hwf) as Hnd.
  pose proof (wf_length _ Hwf) as Hlen.
  rewrite (entries_focus m _ _ _ Hd) in Hnd, Hlen.
  set (rest := concat pre ++ concat post) in *.
  assert (Hwf' : hashmap_wf
            {| capacity := capacity m; length := length m + 1;
               data := pre ++ (Entry (strdup k) v :: bucket (data m) index)
                         :: post |}).
  { apply (wf_refocus m pre _ post _ _ Hwf Hd).
    - intros e He. rewrite Hi. apply elem_of_cons in He as [->|He].
      + simpl. split; [by rewrite hash_function_cstr|apply cstr_idemp].
      + rewrite <- Hi. by apply (wf_bucket m pre _ post e Hwf Hd).
    - fold rest. simpl. apply NoDup_cons. split; [|done].
      apply lmap_lookup_None_inv. by rewrite <- Hc.
    - fold rest. simpl. rewrite Hlen. lia. }
  split; [done|].
  rewrite (contents_focus _ pre _ post Hwf' eq_refl). fold rest.
  simpl. by rewrite Hc.
Qed.

Lemma hashmap_put_custom_spec m k v free_fn :
  hashmap_wf m ->
  hashmap_wf (table (hashmap_put_custom m k v free_fn)) /\
  contents (table (hashmap_put_custom m k v free_fn))
  = <[cstr k := v]> (contents m).
Proof.
  intros Hwf. destruct (contents m !! cstr k) as [old|] eqn:E.
  - destruct (hashmap_put_custom_present m k v free_fn old Hwf E)
      as (front & back & Hb & _ & ->).
    by apply (overwrite_wf m k v old).
  - rewrite hashmap_put_custom_absent by done.
    destruct (hashmap_link_new_wf m k v Hwf E) as [Hwf' Hc].
    destruct (load_factor_reached _ _); simpl; [|done].
    split; [by apply hashmap_grow_wf|].
    by rewrite hashmap_grow_contents.
Qed.

(** *** Removing *)

Lemma hashmap_remove_present m k old :
  hashmap_wf m -> contents m !! cstr k = Some old ->
  let index := hash_function k mod capacity m in
  exists front back,
    bucket (data m) index = front ++ Entry (cstr k) old :: back /\
    (cstr k ∉ key <$> front) /\
    hashmap_remove m k =
      Result old
        {| capacity := capacity m; length := length m - 1;
           data := set_bucket (data m) index (front ++ back) |}
        [ev_release_key (cstr k); ev_release_entry (cstr k)].
Proof.
  intros Hwf Hold index.
  pose proof (bucket_canonical m k Hwf) as Hcan. fold index in Hcan.
  pose proof (bucket_lookup m k Hwf) as Hbl. fold index in Hbl.
  rewrite Hold in Hbl.
  unfold hashmap_remove. fold index.
  destruct (chain_remove k (bucket (data m) index))
    as [[found chain']|] eqn:E.
  - destruct (chain_remove_Some _ _ _ _ Hcan E)
      as (front & back & Hb & -> & Hk & Hfront).
    destruct found as [fk fv]. simpl in Hk. subst fk.
    assert (fv = old) as ->.
    { rewrite Hb, lmap_app, lookup_union_r, lmap_cons in Hbl
        by (by apply lmap_lookup_None).
      simpl in Hbl. rewrite lookup_insert_eq in Hbl. congruence. }
    by exists front, back.
  - apply chain_remove_None in E; [|done].
    apply lmap_lookup_None in E. congruence.
Qed.

Lemma hashmap_remove_absent m k :
  hashmap_wf m -> contents m !! cstr k = None ->
  hashmap_remove m k = Result NULL m [].
Proof.
  intros Hwf Hnone.
  pose proof (bucket_canonical m k Hwf) as Hcan.
  pose proof (bucket_lookup m k Hwf) as Hbl. rewrite Hnone in Hbl.
  apply lmap_lookup_None_inv in Hbl.
  apply (chain_remove_None k _ Hcan) in Hbl.
  unfold hashmap_remove. by rewrite Hbl.
Qed.

Lemma unlink_wf m k old front back :
  hashmap_wf m ->
  let index := hash_function k mod capacity m in
  bucket (data m) index = front ++ Entry (cstr k) old :: back ->
  let m' := {| capacity := capacity m; length := length m - 1;
               data := set_bucket (data m) index (front ++ back) |} in
  hashmap_wf m' /\ contents m' = delete (cstr k) (contents m).
Proof.
  intros Hwf index Hb m'.
  destruct (wf_focus m k Hwf) as (pre & post & Hd & Hi & Hset).
  fold index in Hd, Hi, Hset. subst m'. rewrite Hset.
  pose proof (contents_focus m _ _ _ Hwf Hd) as Hc.
  pose proof (wf_unique _ Hwf) as Hnd.
  pose proof (wf_length _ Hwf) as Hlen.
  rewrite (entries_focus m _ _ _ Hd) in Hnd, Hlen.
  rewrite Hb in Hd, Hc, Hnd, Hlen.
  set (rest := concat pre ++ concat post) in *.
  destruct (lmap_middle _ _ _ _ Hnd) as (Hnotin & Hnd' & Hl).
  simpl in Hnotin, Hl.
  assert (Hwf' : hashmap_wf
            {| capacity := capacity m; length := length m - 1;
               data := pre ++ (front ++ back) :: post |}).
  { apply (wf_refocus m pre _ post _ _ Hwf Hd).
    - intros e He. apply (wf_bucket m pre _ post e Hwf Hd).
      rewrite !elem_of_app, !elem_of_cons in *. tauto.
    - by rewrite <- (assoc (++)).
    - fold rest. rewrite Hlen, !length_app. simpl. lia. }
  split; [done|].
  rewrite (contents_focus _ pre _ post Hwf' eq_refl). fold rest.
  rewrite Hc, Hl, <- (assoc (++)).
  rewrite delete_insert_eq. symmetry. apply delete_id.
  by apply lmap_lookup_None.
Qed.

Lemma hashmap_remove_spec m k :
  hashmap_wf m ->
  hashmap_wf (table (hashmap_remove m k)) /\
  contents (table (hashmap_remove m k)) = delete (cstr k) (contents m) /\
  returned (hashmap_remove m k) = default NULL (contents m !! cstr k).
Proof.
  intros Hwf. destruct (contents m !! cstr k) as [old|] eqn:E.
  - destruct (hashmap_remove_present m k old Hwf E)
      as (front & back & Hb & _ & ->).
    destruct (unlink_wf m k old front back Hwf Hb). done.
  - rewrite hashmap_remove_absent by done. simpl.
    split_and!; [done| |done]. symmetry. by apply delete_id.
Qed.

(** ** The rounding of the load-factor test *)

Lemma pow2_pos_pos k : 0 < pow2_pos k.
Proof. unfold pow2_pos. apply Z.pow_pos_nonneg; lia. Qed.

Lemma pow2_pos_nonneg k : 0 <= k -> pow2_pos k = 2 ^ k.
Proof. intros H. unfold pow2_pos. by rewrite Z.max_r. Qed.

Lemma pow2_pos_nonpos k : k <= 0 -> pow2_pos k = 1.
Proof. intros H. unfold pow2_pos. by rewrite Z.max_l. Qed.

Lemma pow2_pos_shift k j :
  0 <= j ->
  pow2_pos (k + j) * pow2_pos (- k) = 2 ^ j * pow2_pos k * pow2_pos (- (k + j)).
Proof.
  intros Hj.
  destruct (Z_le_gt_dec 0 k) as [Hk|Hk].
  - rewrite (pow2_pos_nonneg (k + j)), (pow2_pos_nonneg k) by lia.
    rewrite !pow2_pos_nonpos by lia. rewrite Z.pow_add_r by lia. ring.
  - destruct (Z_le_gt_dec 0 (k + j)) as [Hkj|Hkj].
    + rewrite (pow2_pos_nonneg (k + j)), (pow2_pos_nonneg (- k)) by lia.
      rewrite !pow2_pos_nonpos by lia.
      rewrite !Z.mul_1_r, <- Z.pow_add_r by lia. f_equal. lia.
    + rewrite (pow2_pos_nonneg (- k)), (pow2_pos_nonneg (- (k + j))) by lia.
      rewrite !pow2_pos_nonpos by lia.
      rewrite Z.mul_1_l, Z.mul_1_r, <- Z.pow_add_r by lia. f_equal. lia.
Qed.

Lemma round_nearest_even_ge n d T :
  0 < d -> 0 <= n -> Z.even T = true ->
  T <= round_nearest_even n d <-> (2 * T - 1) * d <= 2 * n.
Proof.
  intros Hd Hn HT. unfold round_nearest_even.
  pose proof (Z.div_mod n d ltac:(lia)) as Hdm.
  pose proof (Z.mod_pos_bound n d Hd) as Hr.
  set (q := n / d) in *. set (r := n mod d) in *.
  apply Z.even_spec in HT as [t ->].
  destruct (2 * r <? d) eqn:E1; [apply Z.ltb_lt in E1|apply Z.ltb_ge in E1].
  { split; intros H; nia. }
  destruct (d <? 2 * r) eqn:E2; [apply Z.ltb_lt in E2|apply Z.ltb_ge in E2].
  { split; intros H; nia. }
  destruct (Z.even q) eqn:E3.
  - apply Z.even_spec in E3 as [s Hs]. split; intros H; nia.
  - split; intros H; nia.
Qed.

Lemma round_nearest_even_lower n d T :
  0 < d -> T * d <= n -> T <= round_nearest_even n d.
Proof.
  intros Hd Hn. unfold round_nearest_even.
  pose proof (Z.div_mod n d ltac:(lia)) as Hdm.
  pose proof (Z.mod_pos_bound n d Hd) as Hr.
  set (q := n / d) in *. set (r := n mod d) in *.
  assert (T <= q) by nia.
  repeat case_match; lia.
Qed.

Lemma round_nearest_even_upper n d T :
  0 < d -> n <= T * d -> round_nearest_even n d <= T.
Proof.
  intros Hd Hn. unfold round_nearest_even.
  pose proof (Z.div_mod n d ltac:(lia)) as Hdm.
  pose proof (Z.mod_pos_bound n d Hd) as Hr.
  set (q := n / d) in *. set (r := n mod d) in *.
  destruct (2 * r <? d) eqn:E1; [apply Z.ltb_lt in E1|apply Z.ltb_ge in E1].
  { nia. }
  assert (q < T) by nia.
  repeat case_match; lia.
Qed.

Lemma round_nearest_even_1 n : round_nearest_even n 1 = n.
Proof.
  unfold round_nearest_even. rewrite Z.div_1_r, Z.mod_1_r. done.
Qed.

(** A product of two positive factors can be cancelled. *)
Lemma mul_le_cancel_pos a b c : 0 < c -> a * c <= b * c -> a <= b.
Proof. intros Hc H. nia. Qed.
Lemma mul_lt_cancel_pos a b c : 0 < c -> a * c < b * c -> a < b.
Proof. intros Hc H. nia. Qed.

Lemma pow2_pos_diff x y :
  0 <= x -> 0 <= y -> pow2_pos (x - y) * 2 ^ y = pow2_pos (- (x - y)) * 2 ^ x.
Proof.
  intros Hx Hy. destruct (Z_le_gt_dec y x).
  - rewrite (pow2_pos_nonneg (x - y)), (pow2_pos_nonpos (- (x - y))) by lia.
    rewrite <- Z.pow_add_r by lia. rewrite Z.mul_1_l. f_equal. lia.
  - rewrite (pow2_pos_nonpos (x - y)), (pow2_pos_nonneg (- (x - y))) by lia.
    rewrite <- Z.pow_add_r by lia. rewrite Z.mul_1_l. f_equal. lia.
Qed.

Lemma floor_log2_ratio_spec n d :
  0 < n -> 0 < d ->
  let E := floor_log2_ratio n d in
  d * pow2_pos E <= n * pow2_pos (- E) /\
  n * pow2_pos (- (E + 1)) < d * pow2_pos (E + 1).
Proof.
  intros Hn Hd. unfold floor_log2_ratio.
  pose proof (Z.log2_spec n Hn) as [Hn1 Hn2].
  pose proof (Z.log2_spec d Hd) as [Hd1 Hd2].
  pose proof (Z.log2_nonneg n) as Ha. pose proof (Z.log2_nonneg d) as Hb.
  set (a := Z.log2 n) in *. set (b := Z.log2 d) in *.
  destruct (n * pow2_pos (- (a - b)) <? d * pow2_pos (a - b)) eqn:E;
    [apply Z.ltb_lt in E|apply Z.ltb_ge in E]; simpl.
  - split; [|by replace (a - b - 1 + 1) with (a - b) by lia].
    pose proof (pow2_pos_diff a (Z.succ b) Ha ltac:(lia)) as Hk.
    replace (a - Z.succ b) with (a - b - 1) in Hk by lia.
    pose proof (pow2_pos_pos (a - b - 1)) as HP.
    pose proof (pow2_pos_pos (- (a - b - 1))) as HQ.
    assert (d * pow2_pos (a - b - 1) <= pow2_pos (a - b - 1) * 2 ^ Z.succ b)
      by nia.
    assert (pow2_pos (- (a - b - 1)) * 2 ^ a <= n * pow2_pos (- (a - b - 1)))
      by nia.
    lia.
  - split; [done|].
    pose proof (pow2_pos_diff (Z.succ a) b ltac:(lia) Hb) as Hk.
    replace (Z.succ a - b) with (a - b + 1) in Hk by lia.
    pose proof (pow2_pos_pos (a - b + 1)) as HP.
    pose proof (pow2_pos_pos (- (a - b + 1))) as HQ.
    assert (n * pow2_pos (- (a - b + 1)) < pow2_pos (- (a - b + 1)) * 2 ^ Z.succ a)
      by nia.
    assert (pow2_pos (a - b + 1) * 2 ^ b <= d * pow2_pos (a - b + 1))
      by nia.
    lia.
Qed.

(** The significand of a rounded ratio has 24 bits. *)
Lemma float32_significand n d :
  0 < n -> 0 < d ->
  let e := floor_log2_ratio n d - 23 in
  2 ^ 23 * (d * pow2_pos e) <= n * pow2_pos (- e) /\
  n * pow2_pos (- e) < 2 ^ 24 * (d * pow2_pos e).
Proof.
  intros Hn Hd e.
  destruct (floor_log2_ratio_spec n d Hn Hd) as [H1 H2].
  set (E := floor_log2_ratio n d) in *.
  pose proof (pow2_pos_shift e 23 ltac:(lia)) as Hs1.
  pose proof (pow2_pos_shift e 24 ltac:(lia)) as Hs2.
  replace (e + 23) with E in Hs1 by (unfold e; lia).
  replace (e + 24) with (E + 1) in Hs2 by (unfold e; lia).
  pose proof (pow2_pos_pos e). pose proof (pow2_pos_pos (- e)).
  pose proof (pow2_pos_pos E). pose proof (pow2_pos_pos (- E)).
  pose proof (pow2_pos_pos (E + 1)). pose proof (pow2_pos_pos (- (E + 1))).
  split.
  - apply (mul_le_cancel_pos _ _ (pow2_pos (- E))); [done|].
    transitivity (d * pow2_pos E * pow2_pos (- e)); [|nia].
    apply Z.eq_le_incl.
    transitivity (d * (2 ^ 23 * pow2_pos e * pow2_pos (- E))); [ring|].
    rewrite <- Hs1. ring.
  - apply (mul_lt_cancel_pos _ _ (pow2_pos (- (E + 1)))); [done|].
    apply Z.lt_le_trans with (d * pow2_pos (E + 1) * pow2_pos (- e)); [nia|].
    apply Z.eq_le_incl.
    transitivity (d * (2 ^ 24 * pow2_pos e * pow2_pos (- (E + 1)))); [|ring].
    rewrite <- Hs2. ring.
Qed.

(** The test [>= 0.75] on a rounded ratio, without the rounding: the ratio
    passes from [0.75 - 2 ^ -25] on. *)
Lemma float32_of_ratio_ge_0_75 n d :
  0 < n -> 0 < d ->
  float32_ge_0_75 (float32_of_ratio n d) = true
  <-> (3 * 2 ^ 23 - 1) * d <= 2 ^ 25 * n.
Proof.
  intros Hn Hd. unfold float32_ge_0_75, float32_of_ratio.
  destruct (n =? 0) eqn:E0; [apply Z.eqb_eq in E0; lia|clear E0]. simpl.
  rewrite Z.leb_le.
  destruct (float32_significand n d Hn Hd) as [Hlo Hhi].
  destruct (floor_log2_ratio_spec n d Hn Hd) as [H1 H2].
  set (E := floor_log2_ratio n d) in *.
  set (e := E - 23) in *.
  pose proof (pow2_pos_pos e) as HP. pose proof (pow2_pos_pos (- e)) as HQ.
  assert (HD : 0 < d * pow2_pos e) by nia.
  pose proof (round_nearest_even_lower _ _ (2 ^ 23) HD Hlo) as Hm1.
  pose proof (round_nearest_even_upper _ _ (2 ^ 24) HD (Z.lt_le_incl _ _ Hhi))
    as Hm2.
  pose proof (round_nearest_even_ge (n * pow2_pos (- e)) (d * pow2_pos e)
                (3 * 2 ^ 22) HD ltac:(nia) eq_refl) as Hm3.
  set (m := round_nearest_even (n * pow2_pos (- e)) (d * pow2_pos e)) in *.
  destruct (Z_le_gt_dec 0 E) as [HE|HE].
  { (* 1 <= n / d *)
    assert (d <= n) as Hdn.
    { rewrite (pow2_pos_nonpos (- E)) in H1 by lia.
      pose proof (pow2_pos_pos E). nia. }
    split; [lia|]. intros _.
    destruct (Z_le_gt_dec 0 e).
    - rewrite (pow2_pos_nonpos (- e)) by lia. nia.
    - rewrite (pow2_pos_nonpos e), (pow2_pos_nonneg (- e)) by lia.
      assert (2 ^ (- e) <= 2 ^ 23) by (apply Z.pow_le_mono_r; lia). lia. }
  destruct (Z_le_gt_dec E (-2)) as [HE'|HE'].
  { (* n / d < 1 / 2 *)
    assert (2 * n < d) as Hnd.
    { rewrite (pow2_pos_nonpos (E + 1)), (pow2_pos_nonneg (- (E + 1))) in H2
        by lia.
      assert (2 ^ 1 <= 2 ^ (- (E + 1))) by (apply Z.pow_le_mono_r; lia).
      change (2 ^ 1) with 2 in *. nia. }
    split; [|lia]. intros Hge.
    rewrite (pow2_pos_nonpos e), (pow2_pos_nonneg (- e)) in Hge by lia.
    assert (2 ^ 25 <= 2 ^ (- e)) by (apply Z.pow_le_mono_r; lia). lia. }
  (* 1 / 2 <= n / d < 1 *)
  assert (e = -24) as He by lia.
  rewrite He in *. change (pow2_pos (-24)) with 1 in *.
  change (pow2_pos (- -24)) with (2 ^ 24) in *.
  destruct Hm3 as [Hm3 Hm4]. split; intros Hge.
  - assert (3 * 2 ^ 22 <= m) as Hm by lia. apply Hm3 in Hm. lia.
  - assert (3 * 2 ^ 22 <= m) as Hm by (apply Hm4; lia). lia.
Qed.

(** Sizes below [2 ^ 24] are converted without error. *)
Lemma float32_of_size_exact n :
  0 < n < 2 ^ 24 ->
  0 < f_den (float32_of_size n) /\
  f_num (float32_of_size n) = n * f_den (float32_of_size n).
Proof.
  intros Hn. unfold float32_of_size, float32_of_ratio.
  destruct (n =? 0) eqn:E0; [apply Z.eqb_eq in E0; lia|clear E0]. simpl.
  destruct (floor_log2_ratio_spec n 1 ltac:(lia) ltac:(lia)) as [H1 _].
  set (E := floor_log2_ratio n 1) in *.
  assert (E <= 23).
  { destruct (Z_le_gt_dec E 23); [done|].
    rewrite (pow2_pos_nonneg E), (pow2_pos_nonpos (- E)) in H1 by lia.
    assert (2 ^ 24 <= 2 ^ E) by (apply Z.pow_le_mono_r; lia). lia. }
  rewrite (pow2_pos_nonpos (E - 23)) by lia.
  rewrite Z.mul_1_l, round_nearest_even_1.
  split; [apply pow2_pos_pos|lia].
Qed.

(** When the length is below [2 ^ 24] its conversion is exact, and the test
    only sees the rounded capacity and the rounded quotient. *)
Lemma load_factor_reached_len_exact len cap :
  0 < len < 2 ^ 24 ->
  0 < f_num (float32_of_size cap) -> 0 < f_den (float32_of_size cap) ->
  load_factor_reached len cap = true
  <-> (3 * 2 ^ 23 - 1) * f_num (float32_of_size cap)
      <= 2 ^ 25 * (len * f_den (float32_of_size cap)).
Proof.
  intros Hl Hc1 Hc2. unfold load_factor_reached, float32_div.
  destruct (float32_of_size_exact len Hl) as [Hl1 Hl2].
  rewrite Hl2.
  set (ql := f_den (float32_of_size len)) in *.
  set (nc := f_num (float32_of_size cap)) in *.
  set (qc := f_den (float32_of_size cap)) in *.
  rewrite float32_of_ratio_ge_0_75 by nia.
  split; intros H; nia.
Qed.

(** Below [2 ^ 24] both conversions are exact and only the quotient is
    rounded. *)
Lemma load_factor_reached_small len cap :
  0 < len < 2 ^ 24 -> 0 < cap < 2 ^ 24 ->
  load_factor_reached len cap = true
  <-> (3 * 2 ^ 23 - 1) * cap <= 2 ^ 25 * len.
Proof.
  intros Hl Hc.
  destruct (float32_of_size_exact cap Hc) as [Hc1 Hc2].
  rewrite load_factor_reached_len_exact by nia.
  rewrite Hc2. split; intros H; nia.
Qed.

(** For a table of fewer than [2 ^ 23] buckets the test is the exact one. *)
Lemma load_factor_reached_exact len cap :
  0 < cap < 2 ^ 23 -> 0 < len < 2 ^ 24 ->
  load_factor_reached len cap = true <-> 3 * cap <= 4 * len.
Proof.
  intros Hc Hl. rewrite load_factor_reached_small by lia. lia.
Qed.

(** ** Histories *)

Lemma lookup_insert_same_key (c : gmap string ptr) k' k v :
  <[cstr k' := v]> c !! cstr k = if same_key k' k then Some v else c !! cstr k.
Proof.
  unfold same_key. case_bool_decide as Hk.
  - by rewrite Hk, lookup_insert_eq.
  - by rewrite lookup_insert_ne.
Qed.

Lemma lookup_delete_same_key (c : gmap string ptr) k' k :
  delete (cstr k') c !! cstr k = if same_key k' k then None else c !! cstr k.
Proof.
  unfold same_key. case_bool_decide as Hk.
  - by rewrite Hk, lookup_delete_eq.
  - by rewrite lookup_delete_ne.
Qed.

Lemma apply_operation_spec m o k :
  hashmap_wf m ->
  hashmap_wf (apply_operation m o) /\
  contents (apply_operation m o) !! cstr k
  = record_operation k (contents m !! cstr k) o.
Proof.
  intros Hwf.
  destruct o as [k' v|k' v free_fn|k']; simpl.
  - destruct (hashmap_put_custom_spec m k' v (Some free) Hwf) as [Hwf' Hc].
    split; [done|]. unfold hashmap_put.
    by rewrite Hc, lookup_insert_same_key.
  - destruct (hashmap_put_custom_spec m k' v free_fn Hwf) as [Hwf' Hc].
    split; [done|]. by rewrite Hc, lookup_insert_same_key.
  - destruct (hashmap_remove_spec m k' Hwf) as (Hwf' & Hc & _).
    split; [done|]. by rewrite Hc, lookup_delete_same_key.
Qed.

Lemma run_spec m ops k :
  hashmap_wf m ->
  hashmap_wf (run m ops) /\
  contents (run m ops) !! cstr k
  = foldl (record_operation k) (contents m !! cstr k) ops.
Proof.
  revert m. induction ops as [|o ops IH]; intros m Hwf; [done|].
  destruct (apply_operation_spec m o k Hwf) as [Hwf' Hc].
  destruct (IH _ Hwf') as [Hwf'' Hc'].
  change (run m (o :: ops)) with (run (apply_operation m o) ops).
  split; [done|]. by rewrite Hc', Hc.
Qed.

Lemma run_snoc m ops o : run m (ops ++ [o]) = apply_operation (run m ops) o.
Proof. unfold run. by rewrite foldl_app. Qed.

(** The capacity never shrinks. *)
Lemma apply_operation_capacity m o :
  hashmap_wf m -> capacity m <= capacity (apply_operation m o).
Proof.
  intros Hwf. pose proof (wf_capacity _ Hwf).
  assert (Hput : forall k v free_fn,
            capacity m <= capacity (table (hashmap_put_custom m k v free_fn))).
  { intros k v free_fn. unfold hashmap_put_custom.
    destruct (chain_overwrite _ _ _) as [[? ?]|]; simpl; [lia|].
    destruct (load_factor_reached _ _); simpl; lia. }
  destruct o as [k v|k v free_fn|k]; simpl; [apply Hput|apply Hput|].
  unfold hashmap_remove. destruct (chain_remove _ _) as [[? ?]|]; simpl; lia.
Qed.

(** *** The keys [key_of_pos] *)

Lemma key_of_pos_nonempty p : key_of_pos p <> EmptyString.
Proof. by destruct p. Qed.

Lemma key_of_pos_inj p q : key_of_pos p = key_of_pos q -> p = q.
Proof.
  revert q. induction p as [p IH|p IH|]; intros [q|q|] H; simpl in H;
    try discriminate H; try reflexivity.
  - injection H as H. f_equal. by apply IH.
  - injection H as H. by apply key_of_pos_nonempty in H.
  - injection H as H. f_equal. by apply IH.
  - injection H as H. symmetry in H. by apply key_of_pos_nonempty in H.
Qed.

Lemma key_of_pos_cstr p : cstr (key_of_pos p) = key_of_pos p.
Proof. induction p as [p IH|p IH|]; simpl; [by rewrite IH|by rewrite IH|done]. Qed.

Lemma numbered_puts_S n :
  numbered_puts (S n)
  = numbered_puts n
    ++ [op_put (key_of_pos (Pos.of_succ_nat n)) (Z.of_nat (S n))].
Proof. unfold numbered_puts. by rewrite seq_S, fmap_app. Qed.

(** As long as the load-factor test fails, the puts of [numbered_puts]
    each add an entry and leave the capacity alone. *)
Lemma numbered_puts_run c n :
  1 <= c ->
  (forall l, 1 <= l <= Z.of_nat n -> load_factor_reached l c = false) ->
  let m := run (hashmap_create c) (numbered_puts n) in
  hashmap_wf m /\ capacity m = c /\ length m = Z.of_nat n /\
  forall s, is_Some (contents m !! s) ->
    exists i, (i < n)%nat /\ s = key_of_pos (Pos.of_succ_nat i).
Proof.
  intros Hc. induction n as [|n IH]; intros Hload m.
  - subst m. unfold numbered_puts, run. cbn [seq fmap list_fmap foldl].
    split_and!; [by apply hashmap_create_wf|done|done|].
    intros s. rewrite hashmap_create_contents, lookup_empty.
    by intros [? ?].
  - destruct IH as (Hwf & Hcap & Hlen & Hkeys).
    { intros l Hl. apply Hload. lia. }
    subst m. rewrite numbered_puts_S, run_snoc.
    set (m := run (hashmap_create c) (numbered_puts n)) in *.
    set (k := key_of_pos (Pos.of_succ_nat n)).
    assert (Hnone : contents m !! cstr k = None).
    { destruct (contents m !! cstr k) eqn:E; [|done].
      destruct (Hkeys (cstr k)) as (i & Hi & Heq); [by rewrite E|].
      unfold k in Heq. rewrite key_of_pos_cstr in Heq.
      apply key_of_pos_inj, SuccNat2Pos.inj in Heq. lia. }
    cbn [apply_operation]. unfold hashmap_put.
    rewrite hashmap_put_custom_absent by done.
    rewrite Hlen, Hcap, Hload by lia.
    destruct (hashmap_link_new_wf m k (Z.of_nat (S n)) Hwf Hnone) as [Hwf' Hc'].
    cbn [table].
    split_and!; [done|done|cbn; lia|].
    intros s. rewrite Hc'. intros Hs.
    destruct (decide (cstr k = s)) as [<-|Hne].
    + exists n. split; [lia|]. unfold k. by rewrite key_of_pos_cstr.
    + rewrite lookup_insert_ne in Hs by done.
      destruct (Hkeys s Hs) as (i & Hi & ->). exists i. split; [lia|done].
Qed.

(** ** Entries and the finite map; the capacity along a run *)

Lemma contents_lookup_entry m k v :
  hashmap_wf m -> contents m !! k = Some v <-> Entry k v ∈ entries m.
Proof.
  intros Hwf. unfold contents. split.
  - intros Hv.
    apply elem_of_list_to_map_2, list_elem_of_fmap in Hv as (e & Heq & He).
    destruct e as [k' v']. unfold entry_pair in Heq. simpl in Heq.
    by injection Heq as -> ->.
  - intros He. apply elem_of_list_to_map_1.
    + rewrite pairs_keys. apply (wf_unique _ Hwf).
    + apply list_elem_of_fmap. by exists (Entry k v).
Qed.

Lemma entry_lookup_contents m e :
  hashmap_wf m -> e ∈ entries m -> contents m !! key e = Some (value e).
Proof.
  intros Hwf He. apply contents_lookup_entry; [done|]. by destruct e.
Qed.

(** A call doubles the capacity or leaves it. *)
Lemma apply_operation_capacity_step m o :
  capacity (apply_operation m o) = capacity m \/
  capacity (apply_operation m o) = 2 * capacity m.
Proof.
  assert (Hput : forall k v free_fn,
            capacity (table (hashmap_put_custom m k v free_fn)) = capacity m \/
            capacity (table (hashmap_put_custom m k v free_fn))
            = 2 * capacity m).
  { intros k v free_fn. unfold hashmap_put_custom.
    destruct (chain_overwrite _ _ _) as [[? ?]|]; simpl; [by left|].
    destruct (load_factor_reached _ _); simpl; [right; lia|by left]. }
  destruct o as [k v|k v free_fn|k]; cbn [apply_operation];
    [apply Hput|apply Hput|].
  left. unfold hashmap_remove.
  by destruct (chain_remove _ _) as [[? ?]|].
Qed.

Lemma run_app m ops1 ops2 : run m (ops1 ++ ops2) = run (run m ops1) ops2.
Proof. unfold run. apply foldl_app. Qed.

Lemma run_capacity_mono m ops :
  hashmap_wf m -> capacity m <= capacity (run m ops).
Proof.
  revert m. induction ops as [|o ops IH]; intros m Hwf; [done|].
  change (run m (o :: ops)) with (run (apply_operation m o) ops).
  pose proof (apply_operation_capacity m o Hwf).
  destruct (apply_operation_spec m o EmptyString Hwf) as [Hwf' _].
  specialize (IH _ Hwf'). lia.
Qed.


(** ** Properties of the specification *)

(** C1.  Last writer wins: on a table made by [hashmap_create] with a
    capacity of at least one and taken through any finite sequence of
    [hashmap_put], [hashmap_put_custom] and [hashmap_remove], [hashmap_get]
    of a key returns the value of the most recent put for that key, and
    [NULL] if the key was never put or was removed since.  Putting or
    removing another key, whatever bucket it falls in, leaves the answer
    unchanged. *)
Theorem hashmap_get_last_written c ops k :
  1 <= c ->
  let m := run (hashmap_create c) ops in
  returned (hashmap_get m k) = default NULL (last_written k ops) /\
  forall k1 v free_fn,
    cstr k1 <> cstr k ->
    returned (hashmap_get (table (hashmap_put m k1 v)) k)
    = returned (hashmap_get m k) /\
    returned (hashmap_get (table (hashmap_put_custom m k1 v free_fn)) k)
    = returned (hashmap_get m k) /\
    returned (hashmap_get (table (hashmap_remove m k1)) k)
    = returned (hashmap_get m k).
Proof.
  intros Hc m.
  destruct (run_spec (hashmap_create c) ops k (hashmap_create_wf c Hc))
    as [Hwf Hlast].
  fold m in Hwf, Hlast.
  rewrite hashmap_create_contents, lookup_empty in Hlast.
  split.
  - rewrite hashmap_get_contents by done. by rewrite Hlast.
  - intros k1 v free_fn Hne.
    assert (Hput : forall f,
              returned (hashmap_get (table (hashmap_put_custom m k1 v f)) k)
              = returned (hashmap_get m k)).
    { intros f. destruct (hashmap_put_custom_spec m k1 v f Hwf) as [Hwf' Hc'].
      rewrite !hashmap_get_contents by done.
      by rewrite Hc', lookup_insert_ne. }
    split_and!; [apply Hput|apply Hput|].
    destruct (hashmap_remove_spec m k1 Hwf) as (Hwf' & Hc' & _).
    rewrite !hashmap_get_contents by done.
    by rewrite Hc', lookup_delete_ne.
Qed.

(** What the load-factor test of an insert decides on a table of fewer
    than [2 ^ 23] buckets whose load factor is below [0.75]: afterwards
    the load factor is below [0.75] again, after at most one doubling. *)
Lemma hashmap_put_custom_load m k v free_fn :
  hashmap_wf m -> capacity m < 2 ^ 23 ->
  4 * length m < 3 * capacity m ->
  let after := table (hashmap_put_custom m k v free_fn) in
  4 * length after < 3 * capacity after /\
  (capacity after = capacity m \/ capacity after = 2 * capacity m).
Proof.
  intros Hwf Hcap Hload after. subst after.
  pose proof (wf_capacity _ Hwf) as Hc1.
  pose proof (wf_length _ Hwf) as Hlen.
  destruct (contents m !! cstr k) as [old|] eqn:E.
  - destruct (hashmap_put_custom_present m k v free_fn old Hwf E)
      as (front & back & _ & _ & ->).
    simpl. lia.
  - rewrite hashmap_put_custom_absent by done.
    destruct (load_factor_reached (length m + 1) (capacity m)) eqn:El; simpl.
    + apply load_factor_reached_exact in El; lia.
    + split; [|by left].
      destruct (Z_lt_le_dec (4 * (length m + 1)) (3 * capacity m)); [done|].
      assert (load_factor_reached (length m + 1) (capacity m) = true) as Ht
        by (apply load_factor_reached_exact; lia).
      congruence.
Qed.

(** On runs that stay below [2 ^ 23] buckets the load factor is below
    [0.75] after every call. *)
Lemma run_load c ops :
  1 <= c ->
  capacity (run (hashmap_create c) ops) < 2 ^ 23 ->
  4 * length (run (hashmap_create c) ops)
  < 3 * capacity (run (hashmap_create c) ops).
Proof.
  intros Hc. induction ops as [|o ops IH] using rev_ind; intros Hcap.
  - unfold run. simpl. lia.
  - rewrite run_snoc in *.
    destruct (run_spec (hashmap_create c) ops EmptyString
                (hashmap_create_wf c Hc)) as [Hwf _].
    set (m := run (hashmap_create c) ops) in *.
    pose proof (apply_operation_capacity m o Hwf) as Hmono.
    specialize (IH ltac:(lia)).
    destruct o as [k v|k v free_fn|k]; cbn [apply_operation] in *.
    + unfold hashmap_put.
      apply (hashmap_put_custom_load m k v (Some free) Hwf); [lia|done].
    + apply (hashmap_put_custom_load m k v free_fn Hwf); [lia|done].
    + unfold hashmap_remove.
      destruct (chain_remove _ _) as [[? ?]|]; simpl; lia.
Qed.

(** The test of the load factor fails for every length up to [16777221]
    on [22369627] buckets: the capacity is rounded up to [22369628], the
    lengths from [2 ^ 24] on are rounded to even numbers, and the quotient
    stays below [0.75]. *)
Lemma load_factor_not_reached l :
  1 <= l <= 16777221 -> load_factor_reached l 22369627 = false.
Proof.
  intros Hl.
  assert (Hcap : float32_of_size 22369627 = Float32 22369628 1)
    by (vm_compute; reflexivity).
  destruct (Z_lt_le_dec l (2 ^ 24)) as [Hsmall|Hbig].
  - destruct (load_factor_reached l 22369627) eqn:E; [|reflexivity].
    apply load_factor_reached_len_exact in E; rewrite ?Hcap; simpl; try lia.
    rewrite Hcap in E. simpl in E. lia.
  - assert (l = 16777216 \/ l = 16777217 \/ l = 16777218 \/ l = 16777219
            \/ l = 16777220 \/ l = 16777221) as Hcases by lia.
    destruct Hcases as [->|[->|[->|[->|[->| ->]]]]]; vm_compute; reflexivity.
Qed.

(** C2.  The load factor after an insert, evaluated on a table of
    [22369627] buckets: the put of the [16777221]st key leaves the capacity
    as it is, although [16777221 / 22369627] is above [0.75].  The
    conversions to [float] round the length down and the capacity up, and
    the test [>= 0.75] fails. *)
Theorem hashmap_load_factor_rounding :
  let m := run (hashmap_create 22369627) (numbered_puts (Z.to_nat 16777221)) in
  hashmap_wf m /\
  capacity m = 22369627 /\ length m = 16777221 /\
  3 * capacity m <= 4 * length m.
Proof.
  intros m.
  destruct (numbered_puts_run 22369627 (Z.to_nat 16777221)) as (Hwf & Hc & Hl & _).
  - lia.
  - intros l Hl. apply load_factor_not_reached.
    rewrite Z2Nat.id in Hl; lia.
  - fold m in Hwf, Hc, Hl. rewrite Z2Nat.id in Hl by lia.
    split; [exact Hwf|]. split; [exact Hc|]. split; [exact Hl|].
    rewrite Hc, Hl. lia.
Qed.

(** C3.  Growth: when an insert of a new key makes the load-factor test
    succeed, the bucket array of the resulting table has twice the old
    capacity, every entry is in the bucket that the hash of its stored key
    selects modulo the new capacity, and the table answers [hashmap_get]
    and [hashmap_has] for every key as the table before the growth with
    the new entry linked ([hashmap_link_new]) does; the entries are the
    same and their count is the count before the insert plus one. *)
Theorem hashmap_put_custom_growth m k v free_fn :
  hashmap_wf m ->
  returned (hashmap_has m k) = false ->
  load_factor_reached (length m + 1) (capacity m) = true ->
  let linked := hashmap_link_new m k v in
  let after := table (hashmap_put_custom m k v free_fn) in
  after = hashmap_grow linked /\
  capacity after = 2 * capacity m /\
  Z.of_nat (List.length (data after)) = 2 * capacity m /\
  (forall (i : nat) chain e,
     data after !! i = Some chain -> e ∈ chain ->
     hash_function (key e) mod (2 * capacity m) = Z.of_nat i) /\
  entries after ≡ₚ entries linked /\
  (forall k', returned (hashmap_get after k') = returned (hashmap_get linked k')) /\
  (forall k', returned (hashmap_has after k') = returned (hashmap_has linked k')) /\
  returned (hashmap_get after k) = v /\
  (forall k', cstr k' <> cstr k ->
     returned (hashmap_get after k') = returned (hashmap_get m k')) /\
  length after = length m + 1.
Proof.
  intros Hwf Hhas Hload linked after.
  rewrite hashmap_has_contents in Hhas by done.
  apply bool_decide_eq_false in Hhas.
  assert (Hnone : contents m !! cstr k = None).
  { destruct (contents m !! cstr k) eqn:E; [|done]. by destruct Hhas. }
  destruct (hashmap_link_new_wf m k v Hwf Hnone) as [Hwfl Hcl].
  fold linked in Hwfl, Hcl.
  pose proof (hashmap_grow_wf linked Hwfl) as Hwfg.
  pose proof (hashmap_grow_contents linked Hwfl) as Hcg.
  assert (Hafter : after = hashmap_grow linked).
  { subst after. rewrite hashmap_put_custom_absent by done. by rewrite Hload. }
  rewrite Hafter.
  assert (Hcap : capacity (hashmap_grow linked) = 2 * capacity m)
    by (simpl; lia).
  split_and!.
  - done.
  - done.
  - rewrite (wf_buckets _ Hwfg). done.
  - intros i chain e Hi He. rewrite <- Hcap. by apply (wf_index _ Hwfg i chain).
  - by apply hashmap_grow_entries.
  - intros k'. rewrite !hashmap_get_contents by done. by rewrite Hcg.
  - intros k'. rewrite !hashmap_has_contents by done. by rewrite Hcg.
  - rewrite hashmap_get_contents by done.
    by rewrite Hcg, Hcl, lookup_insert_eq.
  - intros k' Hne. rewrite !hashmap_get_contents by done.
    by rewrite Hcg, Hcl, lookup_insert_ne.
  - done.
Qed.

(** C4.  Removal.  For a key that is present, [hashmap_remove] takes
    exactly its entry out of the chain of its bucket (the entries before
    and after it stay, in order), lowers the entry count by one, returns
    the stored value and calls no destructor; the other keys keep their
    values.  For a key that is absent it returns [NULL] and leaves the
    table as it is. *)
Theorem hashmap_remove_correct m k :
  hashmap_wf m ->
  let index := hash_function k mod capacity m in
  let r := hashmap_remove m k in
  (returned (hashmap_has m k) = true ->
   exists front found back,
     bucket (data m) index = front ++ found :: back /\
     key found = cstr k /\
     (cstr k ∉ key <$> front) /\
     table r = {| capacity := capacity m; length := length m - 1;
                  data := set_bucket (data m) index (front ++ back) |} /\
     returned r = value found /\
     events r = [ev_release_key (key found); ev_release_entry (key found)] /\
     destructor_calls (events r) = [] /\
     returned (hashmap_has (table r) k) = false /\
     forall k', cstr k' <> cstr k ->
       returned (hashmap_get (table r) k') = returned (hashmap_get m k')) /\
  (returned (hashmap_has m k) = false -> r = Result NULL m []).
Proof.
  intros Hwf index r. rewrite hashmap_has_contents by done. split.
  - intros [old Hold]%bool_decide_eq_true.
    destruct (hashmap_remove_present m k old Hwf Hold)
      as (front & back & Hb & Hfront & Hr).
    destruct (unlink_wf m k old front back Hwf Hb) as [Hwf' Hc'].
    exists front, (Entry (cstr k) old), back. subst r. rewrite Hr.
    cbn [table returned events key value].
    split_and!; try done.
    + rewrite hashmap_has_contents by done. rewrite Hc', lookup_delete_eq.
      apply bool_decide_eq_false. by intros [? ?].
    + intros k' Hne. rewrite !hashmap_get_contents by done.
      by rewrite Hc', lookup_delete_ne.
  - intros Hnone%bool_decide_eq_false.
    apply hashmap_remove_absent; [done|].
    destruct (contents m !! cstr k) eqn:E; [|done]. by destruct Hnone.
Qed.

(** C5.  Overwriting.  For a key that is present, [hashmap_put_custom]
    calls the destructor once, on the old value, or not at all when the
    destructor is [NULL]; it puts the new value in the entry where it is
    in its chain and leaves the entry count and the capacity as they are:
    the table does not grow. *)
Theorem hashmap_put_custom_overwrite m k v free_fn :
  hashmap_wf m ->
  returned (hashmap_has m k) = true ->
  let index := hash_function k mod capacity m in
  let r := hashmap_put_custom m k v free_fn in
  exists front old back,
    bucket (data m) index = front ++ Entry (cstr k) old :: back /\
    (cstr k ∉ key <$> front) /\
    table r = {| capacity := capacity m; length := length m;
                 data := set_bucket (data m) index
                           (front ++ Entry (cstr k) v :: back) |} /\
    events r = match free_fn with
               | Some f => [ev_call f old]
               | None => []
               end /\
    capacity (table r) = capacity m /\
    length (table r) = length m.
Proof.
  intros Hwf Hhas index r. rewrite hashmap_has_contents in Hhas by done.
  apply bool_decide_eq_true in Hhas as [old Hold].
  destruct (hashmap_put_custom_present m k v free_fn old Hwf Hold)
    as (front & back & Hb & Hfront & Hr).
  exists front, old, back. subst r. rewrite Hr. done.
Qed.

Lemma entry_in_bucket m e :
  hashmap_wf m -> e ∈ entries m ->
  e ∈ bucket (data m) (hash_function (key e) mod capacity m).
Proof.
  intros Hwf He. apply elem_of_concat in He as (chain & Hchain & He).
  apply list_elem_of_lookup in Hchain as [i Hi].
  rewrite (wf_index _ Hwf i chain e Hi He). unfold bucket.
  rewrite Nat2Z.id. by rewrite (list_lookup_total_correct _ _ _ Hi).
Qed.

Lemma bucket_set_bucket_eq buckets index chain :
  0 <= index < Z.of_nat (List.length buckets) ->
  bucket (set_bucket buckets index chain) index = chain.
Proof.
  intros Hi. unfold bucket, set_bucket.
  apply list_lookup_total_insert_eq. lia.
Qed.

Lemma bucket_set_bucket_ne buckets index j chain :
  0 <= index -> 0 <= j -> j <> index ->
  bucket (set_bucket buckets index chain) j = bucket buckets j.
Proof.
  intros Hi Hj Hne. unfold bucket, set_bucket.
  apply list_lookup_total_insert_ne. lia.
Qed.

Lemma has_false_contents m k :
  hashmap_wf m -> returned (hashmap_has m k) = false ->
  contents m !! cstr k = None.
Proof.
  intros Hwf Hhas. rewrite hashmap_has_contents in Hhas by done.
  apply bool_decide_eq_false in Hhas.
  destruct (contents m !! cstr k) eqn:E; [|done]. by destruct Hhas.
Qed.


(** *** Destruction *)

Lemma destroy_chain_events f chain :
  destroy_chain (Some f) chain = Some (chain ≫= entry_events f).
Proof.
  induction chain as [|e chain IH]; [done|].
  simpl. by rewrite IH.
Qed.

Lemma destroy_buckets_events f buckets :
  destroy_buckets (Some f) buckets = Some (concat buckets ≫= entry_events f).
Proof.
  induction buckets as [|chain buckets IH]; [done|].
  simpl. rewrite destroy_chain_events, IH. by rewrite bind_app.
Qed.

Lemma entry_events_calls f (l : list hashmap_entry_t) :
  destructor_calls (l ≫= entry_events f) = (fun e => (f, value e)) <$> l.
Proof.
  induction l as [|e l IH]; [done|].
  cbn. f_equal. exact IH.
Qed.

Lemma entry_events_keys f (l : list hashmap_entry_t) :
  released_keys (l ≫= entry_events f) = key <$> l.
Proof.
  induction l as [|e l IH]; [done|].
  cbn. f_equal. exact IH.
Qed.

Lemma entry_events_entries f (l : list hashmap_entry_t) :
  released_entries (l ≫= entry_events f) = key <$> l.
Proof.
  induction l as [|e l IH]; [done|].
  cbn. f_equal. exact IH.
Qed.

(** C7.  Destruction.  [hashmap_destroy_custom] with destructor [d] goes
    through the entries bucket after bucket and chain after chain; for
    each it releases the key, calls [d] on the value and releases the
    node.  So [d] is called once for the value of each entry, and each
    entry, whose key is in the table once, has its key and its node
    released once; there are as many entries as the entry count says.
    [hashmap_destroy] is [hashmap_destroy_custom] with [free]. *)
Theorem hashmap_destroy_custom_once m d :
  hashmap_wf m ->
  exists evs,
    hashmap_destroy_custom (Some m) (Some d) = Some evs /\
    evs = (entries m ≫= entry_events d) ++ [ev_release_data; ev_release_map] /\
    destructor_calls evs = (fun e => (d, value e)) <$> entries m /\
    released_keys evs = key <$> entries m /\
    released_entries evs = key <$> entries m /\
    NoDup (key <$> entries m) /\
    Z.of_nat (List.length (entries m)) = length m /\
    hashmap_destroy (Some m) = hashmap_destroy_custom (Some m) (Some free).
Proof.
  intros Hwf. pose proof (wf_buckets _ Hwf) as Hb.
  exists ((entries m ≫= entry_events d) ++ [ev_release_data; ev_release_map]).
  split_and!.
  - unfold hashmap_destroy_custom. rewrite take_ge by lia.
    by rewrite destroy_buckets_events.
  - done.
  - unfold destructor_calls. rewrite omap_app. simpl.
    rewrite app_nil_r. apply entry_events_calls.
  - unfold released_keys. rewrite omap_app. simpl.
    rewrite app_nil_r. apply entry_events_keys.
  - unfold released_entries. rewrite omap_app. simpl.
    rewrite app_nil_r. apply entry_events_entries.
  - apply (wf_unique _ Hwf).
  - symmetry. apply (wf_length _ Hwf).
  - done.
Qed.

(** *** The hash *)

Lemma hash_step hash c :
  wrap_ulong (wrap_ulong (wrap_ulong (Z.shiftl hash 5) + hash) + wrap_ulong c)
  = djb2_step hash c.
Proof.
  unfold wrap_ulong, djb2_step.
  rewrite Z.shiftl_mul_pow2 by lia.
  repeat (rewrite Zplus_mod_idemp_l || rewrite Zplus_mod_idemp_r).
  rewrite <- !Z.add_assoc, Zplus_mod_idemp_l.
  f_equal. change (2 ^ 5) with 32. lia.
Qed.

Lemma hash_loop_fold hash s :
  hash_loop hash s
  = foldl (fun h ch => djb2_step h (char_to_int ch)) hash
      (list_ascii_of_string (cstr s)).
Proof.
  revert hash. induction s as [|ch s IH]; intros hash; [done|].
  simpl. rewrite char_to_int_0.
  destruct (byte_of_char ch =? 0); [done|].
  simpl. rewrite hash_step. apply IH.
Qed.

Lemma char_to_int_byte ch :
  plain_char_signed = false \/ byte_of_char ch < 128 ->
  char_to_int ch = byte_of_char ch.
Proof.
  unfold char_to_int. intros [->|Hlt]; [done|].
  destruct plain_char_signed; [|done]. simpl.
  destruct (128 <=? byte_of_char ch) eqn:E; [|done].
  apply Z.leb_le in E. lia.
Qed.

Lemma put_custom_unchanged_bucket m k v free_fn j :
  hashmap_wf m ->
  0 <= j -> j <> hash_function k mod capacity m ->
  capacity (table (hashmap_put_custom m k v free_fn)) = capacity m ->
  bucket (data (table (hashmap_put_custom m k v free_fn))) j
  = bucket (data m) j.
Proof.
  intros Hwf Hj Hne. pose proof (bucket_index_range m k Hwf) as Hr.
  pose proof (wf_capacity _ Hwf) as Hc.
  unfold hashmap_put_custom.
  destruct (chain_overwrite _ _ _) as [[old chain]|]; cbn [table data capacity].
  - intros _. apply bucket_set_bucket_ne; lia.
  - destruct (load_factor_reached _ _); cbn [table data capacity].
    + cbn. lia.
    + intros _. apply bucket_set_bucket_ne; lia.
Qed.

Lemma remove_unchanged_bucket m k j :
  hashmap_wf m ->
  0 <= j -> j <> hash_function k mod capacity m ->
  bucket (data (table (hashmap_remove m k))) j = bucket (data m) j.
Proof.
  intros Hwf Hj Hne. pose proof (bucket_index_range m k Hwf) as Hr.
  unfold hashmap_remove.
  destruct (chain_remove _ _) as [[found chain]|]; cbn [table data]; [|done].
  apply bucket_set_bucket_ne; lia.
Qed.

Lemma djb2_bytes_fold (l : list ascii) hash :
  (plain_char_signed = false \/ Forall (fun ch => byte_of_char ch < 128) l) ->
  foldl (fun h ch => djb2_step h (char_to_int ch)) hash l
  = foldl (fun h ch => djb2_step h (byte_of_char ch)) hash l.
Proof.
  intros Hb. revert hash. induction l as [|ch l IH]; intros hash; [done|].
  simpl. rewrite char_to_int_byte.
  - apply IH. destruct Hb as [Hu|Hl]; [by left|right].
    by apply Forall_inv_tail in Hl.
  - destruct Hb as [Hu|Hl]; [by left|right]. by apply Forall_inv in Hl.
Qed.

Lemma put_custom_capacity m k v free_fn :
  hashmap_wf m ->
  let after := table (hashmap_put_custom m k v free_fn) in
  (capacity after = capacity m \/ capacity after = 2 * capacity m) /\
  (capacity after = 2 * capacity m
   <-> returned (hashmap_has m k) = false /\
       load_factor_reached (length m + 1) (capacity m) = true).
Proof.
  intros Hwf after. subst after. pose proof (wf_capacity _ Hwf) as Hc.
  rewrite hashmap_has_contents by done.
  destruct (contents m !! cstr k) as [old|] eqn:E.
  - destruct (hashmap_put_custom_present m k v free_fn old Hwf E)
      as (front & back & _ & _ & ->).
    cbn [table capacity]. split; [by left|].
    split; [lia|]. intros [Hf _]. apply bool_decide_eq_false in Hf.
    destruct Hf. by exists old.
  - rewrite hashmap_put_custom_absent by done.
    destruct (load_factor_reached _ _); cbn [table capacity hashmap_grow
      hashmap_link_new].
    + split; [right; lia|]. split; [|lia]. intros _. split; [|done].
      apply bool_decide_eq_false. by intros [? ?].
    + split; [by left|]. split; [lia|]. by intros [_ ?].
Qed.

(** C8, as the code has it.  The hash of a key is the DJB2 fold over the
    characters of its C string, from [5381], by [hash * 33 + c] reduced
    modulo [2 ^ 64], where [c] is the character as the C implementation
    reads a plain [char]: the byte itself where plain [char] is unsigned
    and for every byte below 128, the byte less 256 otherwise.  For a key
    of such bytes it is the fold over the bytes.  The operations use the
    bucket numbered by that hash modulo the capacity the table has: an
    entry with the key is in that bucket, where [hashmap_get],
    [hashmap_has] and [hashmap_remove] find it; when that bucket has no
    entry with the key they report the key absent; [hashmap_remove] and a
    put that keeps the capacity leave every other bucket as it is.  A put
    leaves the capacity or doubles it, and doubles it exactly when the
    key is new and the load factor is reached; after it, with or without
    growth, the entry of the key and every entry the table had under
    another key are each in the bucket that the hash of its key selects
    modulo the capacity the table then has, and the table has no other
    entry. *)
Theorem hash_function_djb2 k :
  hash_function k
  = foldl (fun hash ch => (hash * 33 + char_to_int ch) mod 2 ^ 64) 5381
      (list_ascii_of_string (cstr k)) /\
  (forall hash ch,
     (hash * 33 + char_to_int ch) mod 2 ^ 64
     = (hash * 33 + byte_of_char ch
        - (if plain_char_signed && (128 <=? byte_of_char ch) then 256 else 0))
       mod 2 ^ 64) /\
  (plain_char_signed = false \/
   Forall (fun ch => byte_of_char ch < 128) (list_ascii_of_string (cstr k)) ->
   hash_function k = djb2_bytes k) /\
  forall m, hashmap_wf m ->
    let index := hash_function k mod capacity m in
    0 <= index < capacity m /\
    (forall e, e ∈ entries m -> key e = cstr k ->
       e ∈ bucket (data m) index /\
       returned (hashmap_get m k) = value e /\
       returned (hashmap_has m k) = true /\
       returned (hashmap_remove m k) = value e) /\
    ((forall e, e ∈ bucket (data m) index -> key e <> cstr k) ->
       returned (hashmap_get m k) = NULL /\
       returned (hashmap_has m k) = false /\
       hashmap_remove m k = Result NULL m []) /\
    (forall j, 0 <= j -> j <> index ->
       bucket (data (table (hashmap_remove m k))) j = bucket (data m) j) /\
    forall v free_fn,
      let after := table (hashmap_put_custom m k v free_fn) in
      (capacity after = capacity m \/ capacity after = 2 * capacity m) /\
      (capacity after = 2 * capacity m
       <-> returned (hashmap_has m k) = false /\
           load_factor_reached (length m + 1) (capacity m) = true) /\
      (capacity after = capacity m ->
       forall j, 0 <= j -> j <> index ->
         bucket (data after) j = bucket (data m) j) /\
      Entry (cstr k) v
        ∈ bucket (data after) (hash_function k mod capacity after) /\
      (forall e, e ∈ entries m -> key e <> cstr k ->
         e ∈ bucket (data after) (hash_function (key e) mod capacity after)) /\
      (forall (i : nat) chain e,
         data after !! i = Some chain -> e ∈ chain ->
         hash_function (key e) mod capacity after = Z.of_nat i /\
         (e = Entry (cstr k) v \/ e ∈ entries m /\ key e <> cstr k)).
Proof.
  split_and!.
  - apply hash_loop_fold.
  - intros hash ch. unfold char_to_int.
    destruct (plain_char_signed && (128 <=? byte_of_char ch)); f_equal; lia.
  - intros Hb. unfold hash_function, djb2_bytes.
    rewrite hash_loop_fold. by apply djb2_bytes_fold.
  - intros m Hwf index.
    pose proof (bucket_index_range m k Hwf) as Hr. fold index in Hr.
    split; [exact Hr|]. split_and!.
    + intros e He Hk.
      pose proof (entry_lookup_contents m e Hwf He) as Hc. rewrite Hk in Hc.
      split_and!.
      * unfold index. rewrite <- (hash_function_cstr k), <- Hk.
        by apply entry_in_bucket.
      * rewrite hashmap_get_contents by done. by rewrite Hc.
      * rewrite hashmap_has_contents by done. rewrite Hc.
        by apply bool_decide_eq_true.
      * destruct (hashmap_remove_spec m k Hwf) as (_ & _ & ->).
        by rewrite Hc.
    + intros Hnone.
      assert (Hc : contents m !! cstr k = None).
      { rewrite <- (bucket_lookup m k Hwf). apply lmap_lookup_None.
        intros Hin. apply list_elem_of_fmap in Hin as (e & Hk & He).
        by apply (Hnone e He). }
      split_and!.
      * rewrite hashmap_get_contents by done. by rewrite Hc.
      * rewrite hashmap_has_contents by done. rewrite Hc.
        apply bool_decide_eq_false. by intros [? ?].
      * by apply hashmap_remove_absent.
    + intros j Hj Hne. by apply remove_unchanged_bucket.
    + intros v free_fn after.
      destruct (hashmap_put_custom_spec m k v free_fn Hwf) as [Hwf' Hc'].
      fold after in Hwf', Hc'.
      destruct (put_custom_capacity m k v free_fn Hwf) as [Hstep Hiff].
      fold after in Hstep, Hiff.
      split_and!.
      * exact Hstep.
      * exact Hiff.
      * intros Hcap j Hj Hne. by apply put_custom_unchanged_bucket.
      * rewrite <- (hash_function_cstr k).
        apply (entry_in_bucket after (Entry (cstr k) v) Hwf').
        apply contents_lookup_entry; [done|].
        by rewrite Hc', lookup_insert_eq.
      * intros e He Hk.
        apply (entry_in_bucket after e Hwf').
        assert (Entry (key e) (value e) ∈ entries after) as Hin.
        { apply contents_lookup_entry; [done|].
          rewrite Hc', lookup_insert_ne by done.
          by apply entry_lookup_contents. }
        by destruct e.
      * intros i chain e Hi He. split; [by apply (wf_index _ Hwf' i chain)|].
        assert (Hin : e ∈ entries after).
        { apply elem_of_concat. exists chain. split; [|done].
          apply list_elem_of_lookup. by exists i. }
        pose proof (entry_lookup_contents after e Hwf' Hin) as Hl.
        rewrite Hc' in Hl.
        destruct (decide (key e = cstr k)) as [Hk|Hk].
        -- left. rewrite Hk, lookup_insert_eq in Hl.
           destruct e as [k' v']. simpl in *. congruence.
        -- right. split; [|done].
           rewrite lookup_insert_ne in Hl by done.
           apply contents_lookup_entry in Hl; [|done]. by destruct e.
Qed.

(** C10.  [NULL] as a value and [NULL] as "absent".  After a key is put
    with the value [NULL], [hashmap_get] returns [NULL] for it and
    [hashmap_has] returns true; [hashmap_get] also returns [NULL] for a
    key that [hashmap_has] denies.  [hashmap_has] is true exactly when
    some entry of the table has the key, byte for byte, whatever its
    value.  Neither call changes the table or does anything outside it. *)
Theorem hashmap_has_and_get m k :
  hashmap_wf m ->
  (forall free_fn,
     let m' := table (hashmap_put_custom m k NULL free_fn) in
     returned (hashmap_get m' k) = NULL /\
     returned (hashmap_has m' k) = true) /\
  (returned (hashmap_has m k) = false -> returned (hashmap_get m k) = NULL) /\
  (returned (hashmap_has m k) = true
   <-> exists e, e ∈ entries m /\ key e = cstr k) /\
  table (hashmap_get m k) = m /\ events (hashmap_get m k) = [] /\
  table (hashmap_has m k) = m /\ events (hashmap_has m k) = [].
Proof.
  intros Hwf. split_and!; try done.
  - intros free_fn m'.
    destruct (hashmap_put_custom_spec m k NULL free_fn Hwf) as [Hwf' Hc].
    fold m' in Hwf', Hc.
    rewrite hashmap_get_contents, hashmap_has_contents by done.
    rewrite Hc, lookup_insert_eq. split; [done|].
    by apply bool_decide_eq_true.
  - intros Hhas. rewrite hashmap_get_contents by done.
    by rewrite (has_false_contents m k Hwf Hhas).
  - rewrite hashmap_has_contents by done. rewrite bool_decide_eq_true.
    unfold contents. split.
    + intros [v Hv].
      apply elem_of_list_to_map_2, list_elem_of_fmap in Hv as (e & Heq & He).
      exists e. split; [done|]. by injection Heq as -> _.
    + intros (e & He & Hk).
      exists (value e). apply elem_of_list_to_map_1.
      * rewrite pairs_keys. apply (wf_unique _ Hwf).
      * apply list_elem_of_fmap. exists e. split; [|done].
        unfold entry_pair. by rewrite Hk.
Qed.


(** ** Further properties of the table *)

(** X1.  The representation invariant holds of every table made by
    [hashmap_create] with a capacity of at least one and taken through any
    calls of [hashmap_put], [hashmap_put_custom] and [hashmap_remove]: the
    bucket array has as many buckets as the capacity says, every entry is
    in the bucket that the hash of its key selects, no two entries have
    the same key, the entry count is the number of entries, and the index
    computed for any key is inside the bucket array. *)
Theorem run_invariant c ops :
  1 <= c ->
  let m := run (hashmap_create c) ops in
  1 <= capacity m /\
  Z.of_nat (List.length (data m)) = capacity m /\
  (forall (i : nat) chain e,
     data m !! i = Some chain -> e ∈ chain ->
     hash_function (key e) mod capacity m = Z.of_nat i) /\
  NoDup (key <$> entries m) /\
  length m = Z.of_nat (List.length (entries m)) /\
  forall k,
    (Z.to_nat (hash_function k mod capacity m) < List.length (data m))%nat.
Proof.
  intros Hc m.
  destruct (run_spec (hashmap_create c) ops EmptyString
              (hashmap_create_wf c Hc)) as [Hwf _].
  fold m in Hwf.
  split_and!.
  - apply (wf_capacity _ Hwf).
  - apply (wf_buckets _ Hwf).
  - apply (wf_index _ Hwf).
  - apply (wf_unique _ Hwf).
  - apply (wf_length _ Hwf).
  - intros k. pose proof (bucket_index_range m k Hwf).
    pose proof (wf_buckets _ Hwf). lia.
Qed.

(** X2.  The entry count is the number of distinct keys of the table: the
    size of the finite map it stands for, whose keys are exactly the keys
    for which [hashmap_has] answers true. *)
Theorem hashmap_length_counts_keys m :
  hashmap_wf m ->
  length m = Z.of_nat (size (contents m)) /\
  forall k, returned (hashmap_has m k) = true <-> cstr k ∈ dom (contents m).
Proof.
  intros Hwf. split.
  - rewrite (wf_length _ Hwf). unfold contents.
    rewrite map_size_list_to_map by (rewrite pairs_keys; apply (wf_unique _ Hwf)).
    by rewrite length_fmap.
  - intros k. rewrite hashmap_has_contents by done.
    by rewrite bool_decide_eq_true, elem_of_dom.
Qed.

(** X3.  Put, then remove.  Removing a key right after it was put as a
    new key gives back the value that was put, without any call of a
    destructor, and every key is answered by [hashmap_get] and
    [hashmap_has] as before the put; the entry count is back.  When the
    put did not make the table grow, the table is the one before the put,
    bucket for bucket. *)
Theorem hashmap_put_remove m k v free_fn :
  hashmap_wf m ->
  returned (hashmap_has m k) = false ->
  let r := hashmap_remove (table (hashmap_put_custom m k v free_fn)) k in
  returned r = v /\
  destructor_calls (events r) = [] /\
  length (table r) = length m /\
  (forall k', returned (hashmap_get (table r) k') = returned (hashmap_get m k')) /\
  (forall k', returned (hashmap_has (table r) k') = returned (hashmap_has m k')) /\
  (load_factor_reached (length m + 1) (capacity m) = false -> table r = m).
Proof.
  intros Hwf Hhas r.
  pose proof (has_false_contents m k Hwf Hhas) as Hnone.
  destruct (hashmap_put_custom_spec m k v free_fn Hwf) as [Hwf1 Hc1].
  set (m1 := table (hashmap_put_custom m k v free_fn)) in *.
  assert (Hin : contents m1 !! cstr k = Some v) by (by rewrite Hc1, lookup_insert_eq).
  destruct (hashmap_remove_present m1 k v Hwf1 Hin)
    as (front & back & Hb & Hfront & Hr).
  destruct (unlink_wf m1 k v front back Hwf1 Hb) as [Hwf2 Hc2].
  assert (Hc : contents (table r) = contents m).
  { subst r. rewrite Hr. cbn [table]. rewrite Hc2, Hc1.
    by apply delete_insert_id. }
  assert (Hlen1 : length m1 = length m + 1).
  { subst m1. rewrite hashmap_put_custom_absent by done.
    by destruct (load_factor_reached _ _). }
  split_and!.
  - subst r. by rewrite Hr.
  - subst r. by rewrite Hr.
  - subst r. rewrite Hr. cbn [table length]. lia.
  - intros k'. subst r. rewrite Hr in *. cbn [table] in *.
    rewrite !hashmap_get_contents by done. by rewrite Hc.
  - intros k'. subst r. rewrite Hr in *. cbn [table] in *.
    rewrite !hashmap_has_contents by done. by rewrite Hc.
  - intros Hload. clear Hb Hfront Hr Hwf2 Hc2 Hc front back.
    subst r m1. rewrite hashmap_put_custom_absent by done. rewrite Hload.
    cbn [table].
    pose proof (bucket_index_range m k Hwf) as Hi.
    pose proof (wf_buckets _ Hwf) as Hbk.
    unfold hashmap_remove, hashmap_link_new. cbn [capacity data length].
    set (index := hash_function k mod capacity m) in *.
    rewrite bucket_set_bucket_eq by lia.
    cbn [chain_remove key].
    assert (Htest : (strcmp (strdup k) k =? 0) = true).
    { apply Z.eqb_eq, strcmp_0_iff. apply cstr_idemp. }
    rewrite Htest. cbn [table value].
    destruct m as [cap len dat]. cbn [capacity length data] in *.
    f_equal; [lia|].
    unfold set_bucket. rewrite list_insert_insert_eq.
    apply list_insert_id. unfold bucket.
    apply list_lookup_lookup_total_lt. lia.
Qed.

(** X4.  What the destructor is given.  On the overwrite of a key, the
    destructor is called on the value that [hashmap_get] returned for the
    key before the call.  In particular, when the same value is put a
    second time under the same key, it is handed to the destructor and is
    still the value the table holds for the key. *)
Theorem hashmap_put_custom_destroys_old m k :
  hashmap_wf m ->
  (returned (hashmap_has m k) = true ->
   forall v d,
     events (hashmap_put_custom m k v (Some d))
     = [ev_call d (returned (hashmap_get m k))]) /\
  forall v free_fn d,
    let m1 := table (hashmap_put_custom m k v free_fn) in
    let r := hashmap_put_custom m1 k v (Some d) in
    events r = [ev_call d v] /\
    returned (hashmap_get (table r) k) = v.
Proof.
  intros Hwf.
  assert (Hover : forall m0, hashmap_wf m0 ->
            returned (hashmap_has m0 k) = true ->
            forall v d,
              events (hashmap_put_custom m0 k v (Some d))
              = [ev_call d (returned (hashmap_get m0 k))]).
  { intros m0 Hwf0 Hhas v d.
    rewrite hashmap_has_contents in Hhas by done.
    apply bool_decide_eq_true in Hhas as [old Hold].
    destruct (hashmap_put_custom_present m0 k v (Some d) old Hwf0 Hold)
      as (front & back & _ & _ & ->).
    rewrite hashmap_get_contents by done. by rewrite Hold. }
  split; [by apply Hover|].
  intros v free_fn d m1 r.
  destruct (hashmap_put_custom_spec m k v free_fn Hwf) as [Hwf1 Hc1].
  fold m1 in Hwf1, Hc1.
  destruct (hashmap_put_custom_spec m1 k v (Some d) Hwf1) as [Hwf2 Hc2].
  fold r in Hwf2, Hc2.
  split.
  - subst r. rewrite Hover; [|done|].
    + rewrite hashmap_get_contents by done. by rewrite Hc1, lookup_insert_eq.
    + rewrite hashmap_has_contents by done. rewrite Hc1, lookup_insert_eq.
      by apply bool_decide_eq_true.
  - rewrite hashmap_get_contents by done. by rewrite Hc2, lookup_insert_eq.
Qed.

(** X5.  The capacity of a table is the capacity it was created with,
    doubled some number of times, at most once for each call made on it:
    a call leaves the capacity or doubles it.  It never gets smaller: the
    capacity after the first [n] calls of a run is at most the capacity
    at the end of the run. *)
Theorem run_capacity c ops :
  1 <= c ->
  let m := run (hashmap_create c) ops in
  (exists j : nat,
     (j <= List.length ops)%nat /\ capacity m = c * 2 ^ Z.of_nat j) /\
  (forall o, capacity (apply_operation m o) = capacity m \/
             capacity (apply_operation m o) = 2 * capacity m) /\
  (forall n, capacity (run (hashmap_create c) (take n ops)) <= capacity m) /\
  c <= capacity m.
Proof.
  intros Hc m. subst m. split_and!.
  - induction ops as [|o ops IH] using rev_ind.
    + exists 0%nat. split; [done|]. unfold run. simpl. lia.
    + destruct IH as (j & Hj & Hcap).
      rewrite run_snoc, length_app. simpl.
      destruct (apply_operation_capacity_step
                  (run (hashmap_create c) ops) o) as [-> | ->].
      * exists j. split; [lia|done].
      * exists (S j). split; [lia|].
        rewrite Hcap, Nat2Z.inj_succ, Z.pow_succ_r by lia. lia.
  - apply apply_operation_capacity_step.
  - intros n. rewrite <- (take_drop n ops) at 2. rewrite run_app.
    apply run_capacity_mono.
    by apply (run_spec (hashmap_create c) (take n ops) EmptyString),
      hashmap_create_wf.
  - apply (run_capacity_mono (hashmap_create c) ops).
    by apply hashmap_create_wf.
Qed.

(** X6.  When a put makes the table grow, for a table of fewer than
    [2 ^ 23] buckets and fewer than [2 ^ 24 - 1] entries: the capacity
    doubles exactly when the key is new and the entry count with the new
    entry is at least three quarters of the capacity; otherwise the
    capacity stays. *)
Theorem hashmap_put_custom_grows_iff m k v free_fn :
  hashmap_wf m ->
  capacity m < 2 ^ 23 ->
  length m + 1 < 2 ^ 24 ->
  let after := table (hashmap_put_custom m k v free_fn) in
  (capacity after = 2 * capacity m
   <-> returned (hashmap_has m k) = false /\
       3 * capacity m <= 4 * (length m + 1)) /\
  (capacity after = capacity m \/ capacity after = 2 * capacity m).
Proof.
  intros Hwf Hcap Hlen after. subst after.
  pose proof (wf_capacity _ Hwf) as Hc1.
  pose proof (wf_length _ Hwf) as Hl.
  rewrite hashmap_has_contents by done.
  destruct (contents m !! cstr k) as [old|] eqn:E.
  - destruct (hashmap_put_custom_present m k v free_fn old Hwf E)
      as (front & back & _ & _ & ->).
    cbn [table capacity]. split; [|by left].
    split; [lia|]. intros [Hf _]. apply bool_decide_eq_false in Hf.
    by destruct Hf.
  - rewrite hashmap_put_custom_absent by done.
    destruct (load_factor_reached (length m + 1) (capacity m)) eqn:El;
      cbn [table capacity hashmap_grow hashmap_link_new].
    + apply load_factor_reached_exact in El; [|lia..].
      split; [|right; lia]. split; [|lia]. intros _.
      split; [|done]. apply bool_decide_eq_false. by intros [? ?].
    + split; [|by left]. split; [lia|]. intros [_ Hge].
      assert (load_factor_reached (length m + 1) (capacity m) = true) as Ht
        by (apply load_factor_reached_exact; lia).
      congruence.
Qed.

(** *** The order of the chains after a growth *)

Lemma rehash_buckets_flat n buckets old :
  foldl (rehash_chain n) buckets old
  = foldl (rehash_entry n) buckets (concat old).
Proof.
  revert buckets. induction old as [|chain old IH]; intros buckets; [done|].
  simpl. rewrite foldl_app. apply IH.
Qed.

Lemma rehash_entries_bucket n buckets l j :
  0 < n -> Z.of_nat (List.length buckets) = n -> 0 <= j < n ->
  bucket (foldl (rehash_entry n) buckets l) j
  = rev (filter (fun e => hash_function (key e) mod n = j) l)
    ++ bucket buckets j.
Proof.
  intros Hn. revert buckets.
  induction l as [|e l IH]; intros buckets Hlen Hj; [done|].
  assert (Hi : 0 <= hash_function (key e) mod n < n)
    by (apply Z.mod_pos_bound; lia).
  simpl. rewrite IH;
    [|unfold rehash_entry, set_bucket; by rewrite length_insert|done].
  rewrite filter_cons. unfold rehash_entry.
  destruct (decide (hash_function (key e) mod n = j)) as [Heq|Hne].
  - rewrite Heq, bucket_set_bucket_eq by lia.
    simpl. by rewrite <- (assoc (++)).
  - by rewrite bucket_set_bucket_ne by lia.
Qed.

Lemma filter_none {A} (P : A -> Prop) `{!forall x, Decision (P x)} (l : list A) :
  (forall x, x ∈ l -> ~ P x) -> filter P l = [].
Proof.
  induction l as [|x l IH]; intros Hall; [done|].
  rewrite filter_cons, decide_False by (apply Hall; by left).
  apply IH. intros y Hy. apply Hall. by right.
Qed.

Lemma mod_double_mod a c : (a mod (2 * c)) mod c = a mod c.
Proof.
  destruct (decide (c = 0)) as [->|Hc]; [by rewrite Z.mul_0_r, !Z.mod_0_r|].
  rewrite (Z.mod_eq a (2 * c)) by lia.
  replace (a - 2 * c * (a / (2 * c))) with (a + (- (2 * (a / (2 * c)))) * c)
    by ring.
  apply Z_mod_plus_full.
Qed.

Lemma data_focus m i :
  hashmap_wf m -> 0 <= i < capacity m ->
  exists pre post,
    data m = pre ++ bucket (data m) i :: post /\
    Z.of_nat (List.length pre) = i.
Proof.
  intros Hwf Hi. pose proof (wf_buckets _ Hwf) as Hb.
  exists (take (Z.to_nat i) (data m)), (drop (S (Z.to_nat i)) (data m)).
  split.
  - symmetry. apply take_drop_middle. unfold bucket.
    apply list_lookup_lookup_total_lt. lia.
  - rewrite length_take. lia.
Qed.

Lemma hashmap_grow_bucket m j :
  hashmap_wf m -> 0 <= j < 2 * capacity m ->
  bucket (data (hashmap_grow m)) j
  = rev (filter (fun e => hash_function (key e) mod (2 * capacity m) = j)
           (bucket (data m) (j mod capacity m))).
Proof.
  intros Hwf Hj.
  pose proof (wf_capacity _ Hwf) as Hc. pose proof (wf_buckets _ Hwf) as Hb.
  unfold hashmap_grow. cbn [data]. rewrite take_ge by lia.
  rewrite rehash_buckets_flat.
  rewrite rehash_entries_bucket; [|lia|rewrite length_replicate; lia|lia].
  replace (bucket (replicate (Z.to_nat (capacity m * 2)) []) j)
    with ([] : list hashmap_entry_t).
  2:{ unfold bucket. symmetry. apply list_lookup_total_correct.
      apply lookup_replicate_2. lia. }
  rewrite app_nil_r, (Z.mul_comm (capacity m) 2). f_equal.
  assert (Hi : 0 <= j mod capacity m < capacity m)
    by (apply Z.mod_pos_bound; lia).
  destruct (data_focus m (j mod capacity m) Hwf Hi) as (pre & post & Hd & Hpre).
  assert (Hnone : forall e, e ∈ concat pre ++ concat post ->
            ~ hash_function (key e) mod (2 * capacity m) = j).
  { intros e He Heq.
    destruct (wf_others m pre _ post e Hwf Hd He) as [Hne _].
    apply Hne. rewrite Hpre, <- Heq. symmetry. apply mod_double_mod. }
  rewrite Hd at 1. rewrite concat_app. simpl. rewrite !filter_app.
  rewrite (filter_none _ (concat pre)), (filter_none _ (concat post)).
  - by rewrite app_nil_r.
  - intros e He. apply Hnone, elem_of_app. by right.
  - intros e He. apply Hnone, elem_of_app. by left.
Qed.

(** X7.  The chains after a growth.  When a put makes the table grow,
    each chain of the new bucket array holds the entries that its index
    selects among those of one chain of the old array (the one numbered
    by the new index modulo the old capacity, the new entry at its head),
    in the reverse of the order they had there.  In particular the new
    entry is the last of its chain. *)
Theorem hashmap_put_custom_growth_order m k v free_fn :
  hashmap_wf m ->
  returned (hashmap_has m k) = false ->
  load_factor_reached (length m + 1) (capacity m) = true ->
  let linked := hashmap_link_new m k v in
  let after := table (hashmap_put_custom m k v free_fn) in
  (forall j, 0 <= j < 2 * capacity m ->
     bucket (data after) j
     = rev (filter (fun e => hash_function (key e) mod (2 * capacity m) = j)
              (bucket (data linked) (j mod capacity m)))) /\
  exists front,
    bucket (data after) (hash_function k mod (2 * capacity m))
    = front ++ [Entry (strdup k) v].
Proof.
  intros Hwf Hhas Hload linked after.
  pose proof (has_false_contents m k Hwf Hhas) as Hnone.
  destruct (hashmap_link_new_wf m k v Hwf Hnone) as [Hwfl _].
  fold linked in Hwfl.
  assert (Hafter : after = hashmap_grow linked).
  { subst after. rewrite hashmap_put_custom_absent by done. by rewrite Hload. }
  pose proof (wf_capacity _ Hwf) as Hc. pose proof (wf_buckets _ Hwf) as Hb.
  assert (Hall : forall j, 0 <= j < 2 * capacity m ->
            bucket (data after) j
            = rev (filter (fun e => hash_function (key e) mod (2 * capacity m) = j)
                     (bucket (data linked) (j mod capacity m)))).
  { intros j Hj. rewrite Hafter. by apply (hashmap_grow_bucket linked j Hwfl). }
  split; [exact Hall|].
  set (j := hash_function k mod (2 * capacity m)).
  assert (Hj : 0 <= j < 2 * capacity m) by (apply Z.mod_pos_bound; lia).
  assert (Hjm : j mod capacity m = hash_function k mod capacity m)
    by apply mod_double_mod.
  rewrite (Hall j Hj), Hjm.
  pose proof (bucket_index_range m k Hwf) as Hi.
  unfold linked, hashmap_link_new. cbn [data].
  rewrite bucket_set_bucket_eq by lia.
  rewrite filter_cons, decide_True.
  - simpl. eauto.
  - cbn [key]. unfold strdup. by rewrite hash_function_cstr.
Qed.

(** *** Destruction without a destructor *)

Lemma destroy_buckets_NULL buckets :
  destroy_buckets None buckets
  = if decide (concat buckets = []) then Some [] else None.
Proof.
  induction buckets as [|chain buckets IH]; [done|].
  simpl. destruct chain as [|e chain]; simpl.
  - rewrite IH. by destruct (decide (concat buckets = [])).
  - done.
Qed.

Lemma destroy_buckets_empty free_fn buckets :
  concat buckets = [] -> destroy_buckets free_fn buckets = Some [].
Proof.
  induction buckets as [|chain buckets IH]; [done|].
  simpl. intros [-> Hrest]%app_eq_nil. simpl. by rewrite IH.
Qed.

(** X8.  [hashmap_destroy_custom] does not test its destructor against
    [NULL], as [hashmap_put_custom] does: with a [NULL] destructor it
    calls through the [NULL] pointer as soon as the table has an entry.
    On a table without entries it only releases the bucket array and the
    table, whatever the destructor; for a [NULL] table it does nothing. *)
Theorem hashmap_destroy_custom_NULL m :
  hashmap_wf m ->
  (hashmap_destroy_custom (Some m) None = None <-> 0 < length m) /\
  (length m = 0 ->
   forall free_fn,
     hashmap_destroy_custom (Some m) free_fn
     = Some [ev_release_data; ev_release_map]) /\
  forall free_fn, hashmap_destroy_custom None free_fn = Some [].
Proof.
  intros Hwf. pose proof (wf_buckets _ Hwf) as Hb.
  pose proof (wf_length _ Hwf) as Hl. unfold entries in Hl.
  unfold hashmap_destroy_custom. rewrite take_ge by lia.
  split_and!; [|intros Hz free_fn|done].
  - rewrite destroy_buckets_NULL.
    destruct (decide (concat (data m) = [])) as [He|Hne].
    + rewrite He in Hl. simpl in Hl. split; [done|lia].
    + split; [|done]. intros _.
      destruct (concat (data m)); [done|]. simpl in Hl. lia.
  - rewrite destroy_buckets_empty; [done|].
    destruct (concat (data m)); [done|]. simpl in Hl. lia.
Qed.

(** ** The dumps *)

Lemma print_buckets_lines n i buckets :
  (forall (j : nat) chain e,
     buckets !! j = Some chain -> e ∈ chain ->
     hash_function (key e) mod n = i + Z.of_nat j) ->
  print_buckets i buckets
  = (fun e => out_printf ("[%zu] Key: %s, Value: %p" ++ LF)
                [arg_size (hash_function (key e) mod n);
                 arg_string (key e); arg_pointer (value e)])
    <$> concat buckets.
Proof.
  revert i. induction buckets as [|chain buckets IH]; intros i Hidx; [done|].
  simpl. rewrite fmap_app. f_equal.
  - unfold print_chain. apply list_fmap_ext. intros j e He.
    rewrite (Hidx 0%nat chain e); [by rewrite Z.add_0_r|done|].
    apply list_elem_of_lookup. eauto.
  - apply IH. intros j chain' e Hj He.
    rewrite (Hidx (S j) chain' e Hj He). lia.
Qed.

(** X10.  [hashmap_print] writes the entry count, a heading and then one
    line for each entry of the table and no other, bucket after bucket;
    the number at the start of the line of an entry is the hash of its
    key modulo the capacity. *)
Theorem hashmap_print_lines m :
  hashmap_wf m ->
  hashmap_print m
  = out_printf ("Hashmap Size: %zu" ++ LF) [arg_size (length m)]
    :: out_printf ("Hashmap Contents:" ++ LF) []
    :: ((fun e => out_printf ("[%zu] Key: %s, Value: %p" ++ LF)
                    [arg_size (hash_function (key e) mod capacity m);
                     arg_string (key e); arg_pointer (value e)])
        <$> entries m) /\
  Z.of_nat (List.length (hashmap_print m)) = 2 + length m /\
  printed_keys (hashmap_print m) = key <$> entries m.
Proof.
  intros Hwf. pose proof (wf_buckets _ Hwf) as Hb.
  assert (Heq : hashmap_print m
    = out_printf ("Hashmap Size: %zu" ++ LF) [arg_size (length m)]
      :: out_printf ("Hashmap Contents:" ++ LF) []
      :: ((fun e => out_printf ("[%zu] Key: %s, Value: %p" ++ LF)
                      [arg_size (hash_function (key e) mod capacity m);
                       arg_string (key e); arg_pointer (value e)])
          <$> entries m)).
  { unfold hashmap_print. rewrite take_ge by lia. do 2 f_equal.
    apply print_buckets_lines. intros j chain e Hj He.
    by rewrite (wf_index _ Hwf j chain e Hj He). }
  split; [exact Heq|]. rewrite Heq. split.
  - cbn [List.length]. rewrite length_fmap, (wf_length _ Hwf). lia.
  - unfold printed_keys. cbn [omap list_omap]. clear.
    induction (entries m) as [|e l IH]; [done|].
    cbn. f_equal. exact IH.
Qed.

Lemma print_buckets_custom_calls f i buckets :
  exists outs,
    print_buckets_custom (Some f) i buckets = Some outs /\
    printer_calls outs = (fun e => (f, value e)) <$> concat buckets /\
    printed_keys outs = key <$> concat buckets.
Proof.
  revert i. induction buckets as [|chain buckets IH]; intros i.
  - by exists [].
  - destruct (IH (i + 1)) as (outs' & Hrest & Hcalls & Hkeys).
    assert (Hchain : exists outs,
              print_chain_custom (Some f) i chain = Some outs /\
              printer_calls outs = (fun e => (f, value e)) <$> chain /\
              printed_keys outs = key <$> chain).
    { clear. induction chain as [|e chain (outs & Ho & Hc & Hk)].
      - by exists [].
      - simpl. rewrite Ho. eexists. split; [done|].
        unfold printer_calls, printed_keys in *.
        cbn [omap list_omap fmap list_fmap]. by rewrite Hc, Hk. }
    destruct Hchain as (outs & Ho & Hc & Hk).
    exists (outs ++ outs'). simpl. rewrite Ho, Hrest.
    split; [done|]. unfold printer_calls, printed_keys in *.
    by rewrite !omap_app, !fmap_app, Hc, Hk, Hcalls, Hkeys.
Qed.

Lemma print_buckets_custom_NULL i buckets :
  print_buckets_custom None i buckets
  = if decide (concat buckets = []) then Some [] else None.
Proof.
  revert i. induction buckets as [|chain buckets IH]; intros i; [done|].
  simpl. destruct chain as [|e chain]; simpl.
  - rewrite IH. by destruct (decide (concat buckets = [])).
  - done.
Qed.

(** X11.  [hashmap_print_custom] calls the printing function once for the
    value of each entry, bucket after bucket, and shows the key of each
    entry once.  On a table without entries it writes the entry count and
    that the table is empty, and calls nothing.  The printing function is
    not tested against [NULL]: with a [NULL] function the call goes
    through the [NULL] pointer as soon as the table has an entry. *)
Theorem hashmap_print_custom_calls m :
  hashmap_wf m ->
  (forall f,
     exists outs,
       hashmap_print_custom m (Some f) = Some outs /\
       printer_calls outs = (fun e => (f, value e)) <$> entries m /\
       printed_keys outs = key <$> entries m) /\
  (length m = 0 ->
   forall print_fn,
     hashmap_print_custom m print_fn
     = Some [out_printf ("Hashmap array: %zu" ++ LF) [arg_size 0];
             out_printf ("Hashmap is empty" ++ LF) []]) /\
  (hashmap_print_custom m None = None <-> 0 < length m).
Proof.
  intros Hwf. pose proof (wf_buckets _ Hwf) as Hb.
  pose proof (wf_length _ Hwf) as Hl.
  assert (Hempty : length m = 0 -> entries m = []).
  { intros Hz. destruct (entries m); [done|]. simpl in Hl. lia. }
  unfold hashmap_print_custom. rewrite take_ge by lia.
  split_and!.
  - intros f. destruct (length m =? 0) eqn:E.
    + apply Z.eqb_eq in E. rewrite (Hempty E). eexists. split; [done|].
      by split.
    + destruct (print_buckets_custom_calls f 0 (data m))
        as (outs & -> & Hc & Hk).
      eexists. split; [done|]. split; [exact Hc|exact Hk].
  - intros Hz print_fn. by rewrite Hz.
  - destruct (length m =? 0) eqn:E.
    + apply Z.eqb_eq in E. split; [done|lia].
    + apply Z.eqb_neq in E. rewrite print_buckets_custom_NULL.
      destruct (decide (concat (data m) = [])) as [He|Hne].
      * unfold entries in Hl. rewrite He in Hl. simpl in Hl. lia.
      * split; [|done]. intros _. lia.
Qed.

(** ** The tables of layout attributes *)

Lemma destroy_buckets_layout_attribute_events destroy_field buckets :
  (forall e, e ∈ concat buckets -> value e <> NULL ->
     is_Some (destroy_field (value e))) ->
  destroy_buckets_layout_attribute destroy_field buckets
  = Some (concat buckets ≫= entry_events_layout_attribute destroy_field).
Proof.
  induction buckets as [|chain buckets IH]; intros Hf; [done|].
  simpl in *. rewrite IH by (intros e He; apply Hf, elem_of_app; by right).
  assert (Hchain : destroy_chain_layout_attribute destroy_field chain
                   = Some (chain ≫= entry_events_layout_attribute destroy_field)).
  { assert (Hf' : forall e, e ∈ chain -> value e <> NULL ->
                    is_Some (destroy_field (value e)))
      by (intros e He; apply Hf, elem_of_app; by left).
    clear -Hf'. induction chain as [|e chain IHc]; [done|].
    simpl. rewrite IHc by (intros e' He'; apply Hf'; by right).
    unfold entry_events_layout_attribute at 2.
    destruct (value e =? NULL) eqn:E; [done|].
    apply Z.eqb_neq in E.
    destruct (Hf' e ltac:(by left) E) as [f ->]. done. }
  by rewrite Hchain, bind_app.
Qed.

Lemma entry_events_layout_attribute_keys destroy_field (l : list hashmap_entry_t) :
  released_keys (l ≫= entry_events_layout_attribute destroy_field) = key <$> l /\
  released_entries (l ≫= entry_events_layout_attribute destroy_field) = key <$> l /\
  destructor_calls (l ≫= entry_events_layout_attribute destroy_field)
  = omap (fun e => if value e =? NULL then None
                   else (fun f => (f, value e)) <$> destroy_field (value e)) l.
Proof.
  induction l as [|e l (IH1 & IH2 & IH3)]; [done|].
  unfold released_keys, released_entries, destructor_calls in *.
  cbn [mbind list_bind]. rewrite !omap_app, IH1, IH2, IH3.
  unfold entry_events_layout_attribute. cbn [omap list_omap fmap list_fmap].
  destruct (value e =? NULL); [done|].
  destruct (destroy_field (value e)); done.
Qed.

(** X12.  [hashmap_destroy_layout_attribute] and its two siblings release
    the key and the node of each entry once, as [hashmap_destroy_custom]
    does, and destroy the value of an entry by the function in the
    [destroy] field of that value; an entry whose value is [NULL] has
    nothing called for it.  On a table whose values are all objects with
    the same function [d] in that field, the calls are those of
    [hashmap_destroy_custom] with [d]. *)
Theorem hashmap_destroy_layout_attribute_once destroy_field m :
  hashmap_wf m ->
  (forall e, e ∈ entries m -> value e <> NULL ->
     is_Some (destroy_field (value e))) ->
  (exists evs,
     hashmap_destroy_layout_attribute destroy_field (Some m) = Some evs /\
     released_keys evs = key <$> entries m /\
     released_entries evs = key <$> entries m /\
     destructor_calls evs
     = omap (fun e => if value e =? NULL then None
                      else (fun f => (f, value e)) <$> destroy_field (value e))
         (entries m)) /\
  forall d,
    (forall e, e ∈ entries m ->
       value e <> NULL /\ destroy_field (value e) = Some d) ->
    hashmap_destroy_layout_attribute destroy_field (Some m)
    = hashmap_destroy_custom (Some m) (Some d).
Proof.
  intros Hwf Hfield. pose proof (wf_buckets _ Hwf) as Hb.
  unfold hashmap_destroy_layout_attribute, hashmap_destroy_custom.
  rewrite take_ge by lia.
  rewrite destroy_buckets_layout_attribute_events by exact Hfield.
  fold (entries m).
  destruct (entry_events_layout_attribute_keys destroy_field (entries m))
    as (Hk & He & Hc).
  split.
  - eexists. split; [done|].
    unfold released_keys, released_entries, destructor_calls in *.
    rewrite !omap_app, Hk, He, Hc. simpl. by rewrite !app_nil_r.
  - intros d Hd. rewrite destroy_buckets_events. fold (entries m).
    do 2 f_equal. clear -Hd.
    induction (entries m) as [|e l IH]; [done|].
    cbn [mbind list_bind]. rewrite IH by (intros e' He'; apply Hd; by right).
    f_equal. destruct (Hd e ltac:(by left)) as [Hn Hf].
    unfold entry_events_layout_attribute, entry_events.
    apply Z.eqb_neq in Hn. by rewrite Hn, Hf.
Qed.

Lemma buckets_has_any_sub_value_true has_any_sub_value buckets :
  buckets_has_any_sub_value has_any_sub_value buckets = true
  <-> exists e, e ∈ concat buckets /\ value e <> NULL /\
                has_any_sub_value (value e) = true.
Proof.
  assert (Hchain : forall chain,
            chain_has_any_sub_value has_any_sub_value chain = true
            <-> exists e, e ∈ chain /\ value e <> NULL /\
                          has_any_sub_value (value e) = true).
  { induction chain as [|e chain IH]; simpl.
    - split; [done|]. intros (e & He & _). by apply elem_of_nil in He.
    - destruct (value e =? NULL) eqn:E; simpl.
      + apply Z.eqb_eq in E. rewrite IH. split.
        * intros (e' & He' & H). exists e'. split; [by right|done].
        * intros (e' & [->|He']%elem_of_cons & Hn & Hp); [done|].
          by exists e'.
      + apply Z.eqb_neq in E.
        destruct (has_any_sub_value (value e)) eqn:Ep.
        * split; [|done]. intros _. exists e. split; [by left|done].
        * rewrite IH. split.
          -- intros (e' & He' & H). exists e'. split; [by right|done].
          -- intros (e' & [->|He']%elem_of_cons & Hn & Hp); [congruence|].
             by exists e'. }
  induction buckets as [|chain buckets IH]; simpl.
  - split; [done|]. intros (e & He & _). by apply elem_of_nil in He.
  - destruct (chain_has_any_sub_value has_any_sub_value chain) eqn:E.
    + apply Hchain in E as (e & He & H). split; [|done]. intros _.
      exists e. split; [apply elem_of_app; by left|done].
    + rewrite IH. split.
      * intros (e & He & H). exists e. split; [apply elem_of_app; by right|done].
      * intros (e & [He|He]%elem_of_app & H); [|by exists e].
        assert (chain_has_any_sub_value has_any_sub_value chain = true)
          by (apply Hchain; by exists e).
        congruence.
Qed.

(** X13.  [hashmap_has_any_sub_value_layout_attribute_style_state] and
    [hashmap_layout_attribute_has_any_sub_value] answer true exactly when
    the table has a key whose value, as [hashmap_get] returns it, is not
    [NULL] and has a sub value; the answer does not depend on the buckets
    the entries are in.  For a [NULL] table the answer is false. *)
Theorem hashmap_has_any_sub_value_correct has_any_sub_value m :
  hashmap_wf m ->
  (hashmap_has_any_sub_value_layout_attribute_style_state
     has_any_sub_value (Some m) = true
   <-> exists k, returned (hashmap_get m k) <> NULL /\
                 has_any_sub_value (returned (hashmap_get m k)) = true) /\
  hashmap_layout_attribute_has_any_sub_value has_any_sub_value (Some m)
  = hashmap_has_any_sub_value_layout_attribute_style_state
      has_any_sub_value (Some m) /\
  hashmap_has_any_sub_value_layout_attribute_style_state
    has_any_sub_value None = false /\
  hashmap_layout_attribute_has_any_sub_value has_any_sub_value None = false.
Proof.
  intros Hwf. pose proof (wf_buckets _ Hwf) as Hb.
  split_and!; try done.
  unfold hashmap_has_any_sub_value_layout_attribute_style_state.
  rewrite take_ge by lia. rewrite buckets_has_any_sub_value_true.
  fold (entries m). split.
  - intros (e & He & Hn & Hp). exists (key e).
    assert (Hget : returned (hashmap_get m (key e)) = value e).
    { rewrite hashmap_get_contents by done.
      rewrite (wf_keys _ Hwf e He). unfold contents.
      erewrite elem_of_list_to_map_1; [done| |].
      - rewrite pairs_keys. apply (wf_unique _ Hwf).
      - apply list_elem_of_fmap. by exists e. }
    by rewrite Hget.
  - intros (k & Hn & Hp). rewrite hashmap_get_contents in Hn, Hp by done.
    destruct (contents m !! cstr k) as [v|] eqn:E; [|done]. simpl in Hn, Hp.
    unfold contents in E.
    apply elem_of_list_to_map_2, list_elem_of_fmap in E as (e & Heq & He).
    injection Heq as _ ->. by exists e.
Qed.

Lemma print_buckets_layout_attribute_calls print_field i buckets :
  (forall e, e ∈ concat buckets -> value e <> NULL ->
     is_Some (print_field (value e))) ->
  exists outs,
    print_buckets_layout_attribute print_field i buckets = Some outs /\
    printed_keys outs = key <$> concat buckets /\
    printer_calls outs
    = omap (fun e => if value e =? NULL then None
                     else (fun f => (f, value e)) <$> print_field (value e))
        (concat buckets).
Proof.
  revert i. induction buckets as [|chain buckets IH]; intros i Hf.
  - by exists [].
  - simpl in Hf.
    destruct (IH (i + 1)) as (outs' & Hrest & Hkeys & Hcalls).
    { intros e He. apply Hf, elem_of_app. by right. }
    assert (Hchain : exists outs,
              print_chain_layout_attribute print_field i chain = Some outs /\
              printed_keys outs = key <$> chain /\
              printer_calls outs
              = omap (fun e => if value e =? NULL then None
                               else (fun f => (f, value e))
                                      <$> print_field (value e)) chain).
    { assert (Hf' : forall e, e ∈ chain -> value e <> NULL ->
                      is_Some (print_field (value e)))
        by (intros e He; apply Hf, elem_of_app; by left).
      clear -Hf'. induction chain as [|e chain IHc].
      - by exists [].
      - destruct IHc as (outs & Ho & Hk & Hc).
        { intros e' He'. apply Hf'. by right. }
        simpl. rewrite Ho.
        unfold printer_calls, printed_keys in *.
        cbn [omap list_omap fmap list_fmap]. unfold NULL in *.
        destruct (value e =? 0) eqn:E.
        + eexists. split; [done|]. cbn [omap list_omap app].
          by rewrite Hk, Hc.
        + apply Z.eqb_neq in E.
          destruct (Hf' e ltac:(by left) E) as [f Hfe]. rewrite Hfe.
          eexists. split; [done|]. cbn [omap list_omap app fmap option_fmap option_map].
          by rewrite Hk, Hc. }
    destruct Hchain as (outs & Ho & Hk & Hc).
    exists (outs ++ outs'). simpl. rewrite Ho, Hrest.
    split; [done|]. unfold printer_calls, printed_keys in *.
    by rewrite !omap_app, !fmap_app, Hk, Hc, Hkeys, Hcalls.
Qed.

Lemma print_buckets_layout_attribute_outputs print_field n i buckets :
  (forall e, e ∈ concat buckets -> value e <> NULL ->
     is_Some (print_field (value e))) ->
  (forall (j : nat) chain e,
     buckets !! j = Some chain -> e ∈ chain ->
     hash_function (key e) mod n = i + Z.of_nat j) ->
  print_buckets_layout_attribute print_field i buckets
  = Some (concat buckets ≫=
            fun e => entry_outputs_layout_attribute print_field
                       (hash_function (key e) mod n) e).
Proof.
  revert i. induction buckets as [|chain buckets IH]; intros i Hf Hidx; [done|].
  simpl in Hf. simpl.
  assert (Hchain : print_chain_layout_attribute print_field i chain
            = Some (chain ≫=
                      fun e => entry_outputs_layout_attribute print_field
                                 (hash_function (key e) mod n) e)).
  { assert (Hf' : forall e, e ∈ chain -> value e <> NULL ->
                    is_Some (print_field (value e)))
      by (intros e He; apply Hf, elem_of_app; by left).
    assert (Hi : forall e, e ∈ chain -> hash_function (key e) mod n = i).
    { intros e He. rewrite (Hidx 0%nat chain e eq_refl He). simpl. lia. }
    clear -Hf' Hi. induction chain as [|e chain IHc]; [done|].
    simpl. rewrite IHc.
    - rewrite (Hi e) by (by left).
      unfold entry_outputs_layout_attribute, NULL in *.
      destruct (value e =? 0) eqn:E; [done|].
      apply Z.eqb_neq in E.
      destruct (Hf' e ltac:(by left) E) as [f Hfe]. by rewrite Hfe.
    - intros e' He'. apply Hf'. by right.
    - intros e' He'. apply Hi. by right. }
  rewrite Hchain, IH.
  - by rewrite bind_app.
  - intros e He. apply Hf, elem_of_app. by right.
  - intros j chain' e Hj He. rewrite (Hidx (S j) chain' e Hj He). lia.
Qed.

(** X14.  [hashmap_print_layout_attribute] shows the key of each entry
    once, bucket after bucket, and prints the value of an entry by the
    function in the [print] field of that value; for an entry whose value
    is [NULL] it calls nothing and writes the line [NULL].  So the dump
    of a table with entries is the entry count and then, for each entry
    in turn, its bucket number and key followed by that call or that
    line.  On a table without entries it writes the entry count and that
    the table is empty. *)
Theorem hashmap_print_layout_attribute_calls print_field m :
  hashmap_wf m ->
  (forall e, e ∈ entries m -> value e <> NULL ->
     is_Some (print_field (value e))) ->
  (exists outs,
     hashmap_print_layout_attribute print_field m = Some outs /\
     printed_keys outs = key <$> entries m /\
     printer_calls outs
     = omap (fun e => if value e =? NULL then None
                      else (fun f => (f, value e)) <$> print_field (value e))
         (entries m)) /\
  (length m = 0 ->
   hashmap_print_layout_attribute print_field m
   = Some [out_printf ("Hashmap length: %zu" ++ LF) [arg_size 0];
           out_printf ("Hashmap is empty" ++ LF) []]) /\
  (0 < length m ->
   hashmap_print_layout_attribute print_field m
   = Some (out_printf ("Hashmap length: %zu" ++ LF) [arg_size (length m)]
           :: (entries m ≫=
                 fun e => entry_outputs_layout_attribute print_field
                            (hash_function (key e) mod capacity m) e))) /\
  (forall e outs,
     hashmap_print_layout_attribute print_field m = Some outs ->
     e ∈ entries m -> value e = NULL ->
     exists before behind,
       outs = before
              ++ out_printf "[%zu] Key: %s, Value: "
                   [arg_size (hash_function (key e) mod capacity m);
                    arg_string (key e)]
              :: out_printf ("NULL" ++ LF) [] :: behind).
Proof.
  intros Hwf Hfield. pose proof (wf_buckets _ Hwf) as Hb.
  pose proof (wf_length _ Hwf) as Hl.
  assert (Hfull : 0 < length m ->
    hashmap_print_layout_attribute print_field m
    = Some (out_printf ("Hashmap length: %zu" ++ LF) [arg_size (length m)]
            :: (entries m ≫=
                  fun e => entry_outputs_layout_attribute print_field
                             (hash_function (key e) mod capacity m) e))).
  { intros Hpos. unfold hashmap_print_layout_attribute.
    rewrite take_ge by lia.
    destruct (length m =? 0) eqn:E; [apply Z.eqb_eq in E; lia|].
    rewrite (print_buckets_layout_attribute_outputs print_field
               (capacity m) 0 (data m)); [done|exact Hfield|].
    intros j chain e Hj He. by rewrite (wf_index _ Hwf j chain e Hj He). }
  split_and!.
  - unfold hashmap_print_layout_attribute. rewrite take_ge by lia.
    destruct (length m =? 0) eqn:E.
    + apply Z.eqb_eq in E.
      assert (entries m = []) as ->.
      { destruct (entries m); [done|]. simpl in Hl. lia. }
      eexists. split; [done|]. by split.
    + destruct (print_buckets_layout_attribute_calls print_field 0 (data m)
                  Hfield) as (outs & -> & Hk & Hc).
      eexists. split; [done|]. split; [exact Hk|exact Hc].
  - intros Hz. unfold hashmap_print_layout_attribute. by rewrite Hz.
  - exact Hfull.
  - intros e outs Hout He Hnull.
    assert (Hpos : 0 < length m).
    { rewrite Hl. destruct (entries m); [by apply elem_of_nil in He|].
      simpl. lia. }
    rewrite (Hfull Hpos) in Hout. injection Hout as <-.
    apply list_elem_of_split in He as (l1 & l2 & ->).
    exists (out_printf ("Hashmap length: %zu" ++ LF) [arg_size (length m)]
            :: (l1 ≫=
                  fun e => entry_outputs_layout_attribute print_field
                             (hash_function (key e) mod capacity m) e)).
    exists (l2 ≫=
              fun e => entry_outputs_layout_attribute print_field
                         (hash_function (key e) mod capacity m) e).
    rewrite bind_app, bind_cons.
    unfold entry_outputs_layout_attribute at 2. rewrite Hnull. simpl.
    reflexivity.
Qed.

(** ** The load factor along a run *)

(** X9.  On a run of calls that ends with fewer than [2 ^ 23] buckets, the
    load factor is below [0.75] after each call of the run: after the
    first [n] calls, for every [n], four times the entry count is less
    than three times the capacity. *)
Theorem run_load_after_each_call c ops n :
  1 <= c ->
  capacity (run (hashmap_create c) ops) < 2 ^ 23 ->
  let m := run (hashmap_create c) (take n ops) in
  4 * length m < 3 * capacity m.
Proof.
  intros Hc Hcap m. subst m. apply run_load; [done|].
  rewrite <- (take_drop n ops) in Hcap. rewrite run_app in Hcap.
  destruct (run_spec (hashmap_create c) (take n ops) EmptyString
              (hashmap_create_wf c Hc)) as [Hwf _].
  pose proof (run_capacity_mono _ (drop n ops) Hwf). lia.
Qed.

(** X16.  [hashmap_remove] returns what [hashmap_get] returns for the key
    on the table before the call, [NULL] for an absent key included;
    after the call [hashmap_get] returns [NULL] for the key,
    [hashmap_has] denies it, and a second [hashmap_remove] of the key
    returns [NULL] and changes nothing. *)
Theorem hashmap_remove_returns_get m k :
  hashmap_wf m ->
  let r := hashmap_remove m k in
  returned r = returned (hashmap_get m k) /\
  returned (hashmap_get (table r) k) = NULL /\
  returned (hashmap_has (table r) k) = false /\
  hashmap_remove (table r) k = Result NULL (table r) [].
Proof.
  intros Hwf r.
  destruct (hashmap_remove_spec m k Hwf) as (Hwf' & Hc & Hret).
  fold r in Hwf', Hc, Hret.
  assert (Hnone : contents (table r) !! cstr k = None)
    by (by rewrite Hc, lookup_delete_eq).
  split_and!.
  - rewrite Hret. by rewrite hashmap_get_contents.
  - rewrite hashmap_get_contents by done. by rewrite Hnone.
  - rewrite hashmap_has_contents by done. rewrite Hnone.
    apply bool_decide_eq_false. by intros [? ?].
  - by apply hashmap_remove_absent.
Qed.
End Hashmap.

(** ** The keyword table *)

Lemma type_keyword_in_spec table lexeme :
  (forall kw, kw ∈ table -> cstr (name kw) = name kw) ->
  NoDup (name <$> table) ->
  (forall kw, kw ∈ table -> cstr lexeme = name kw ->
     type_keyword_in table lexeme = type kw) /\
  ((forall kw, kw ∈ table -> cstr lexeme <> name kw) ->
   type_keyword_in table lexeme = TOKEN_IDENTIFIER).
Proof.
  induction table as [|kw0 table IH]; intros Hc Hnd.
  - split; [|done]. intros kw Hkw. by apply elem_of_nil in Hkw.
  - rewrite fmap_cons in Hnd. apply NoDup_cons in Hnd as [Hnotin Hnd].
    destruct IH as [IH1 IH2]; [|done|].
    { intros kw Hkw. apply Hc. by right. }
    assert (Htest : (strcmp lexeme (name kw0) =? 0)
                    = bool_decide (cstr lexeme = name kw0)).
    { assert (Hk0 : cstr (name kw0) = name kw0) by (apply Hc; by left).
      case_bool_decide as H.
      - apply Z.eqb_eq, strcmp_0_iff. by rewrite Hk0.
      - apply Z.eqb_neq. by rewrite strcmp_0_iff, Hk0. }
    simpl. rewrite Htest. split.
    + intros kw Hkw Heq. apply elem_of_cons in Hkw as [->|Hkw].
      * by rewrite bool_decide_eq_true_2.
      * rewrite bool_decide_eq_false_2; [by apply IH1|].
        intros Heq'. apply Hnotin. rewrite <- Heq', Heq.
        by apply list_elem_of_fmap_2.
    + intros Hnone. rewrite bool_decide_eq_false_2.
      * apply IH2. intros kw Hkw. apply Hnone. by right.
      * apply Hnone. by left.
Qed.

(** A list of distinct literals has no duplicates. *)
Ltac nodup_literals :=
  repeat (apply NoDup_cons; split;
          [ let Hin := fresh "Hin" in
            intros Hin;
            repeat (apply elem_of_cons in Hin as [Hin|Hin]; [discriminate Hin|]);
            by apply elem_of_nil in Hin
          | ]);
  apply NoDup_nil_2.

(** C9.  Keyword classification.  The table holds, in this order, the
    words layout, import, fn, return, if, print, else, while, for, break
    and continue, each with a token type of its own (none of them the type
    of identifiers or of boolean literals), and true and false, both with
    the type of boolean literals.  A lexeme that is, as a whole,
    one of these words is given the token type the table has for it; any
    other lexeme is a generic identifier. *)
Theorem type_keyword_correct lexeme :
  name <$> keywords
  = ["layout"; "import"; "fn"; "return"; "if"; "print"; "else"; "while";
     "for"; "break"; "continue"; "true"; "false"] /\
  type <$> keywords
  = [TOKEN_LAYOUT; TOKEN_IMPORT; TOKEN_FUNCTION; TOKEN_RETURN; TOKEN_IF;
     TOKEN_PRINT; TOKEN_ELSE; TOKEN_WHILE; TOKEN_FOR; TOKEN_BREAK;
     TOKEN_CONTINUE; TOKEN_BOOLEAN; TOKEN_BOOLEAN] /\
  NoDup (TOKEN_IDENTIFIER :: take 12 (type <$> keywords)) /\
  (forall kw, kw ∈ keywords -> cstr lexeme = name kw ->
     type_keyword lexeme = type kw) /\
  ((forall kw, kw ∈ keywords -> cstr lexeme <> name kw) ->
   type_keyword lexeme = TOKEN_IDENTIFIER).
Proof.
  split_and!; [done|done| |..].
  - cbn. nodup_literals.
  - apply type_keyword_in_spec.
    + intros kw Hkw. unfold keywords in Hkw.
      repeat (apply elem_of_cons in Hkw as [->|Hkw]; [reflexivity|]).
      by apply elem_of_nil in Hkw.
    + cbn. nodup_literals.
  - apply type_keyword_in_spec.
    + intros kw Hkw. unfold keywords in Hkw.
      repeat (apply elem_of_cons in Hkw as [->|Hkw]; [reflexivity|]).
      by apply elem_of_nil in Hkw.
    + cbn. nodup_literals.
Qed.

(** ** The definitions on small inputs *)

Example hash_function_a : hash_function true "a" = 5381 * 33 + 97.
Proof. reflexivity. Qed.

Example hash_function_stops_at_terminator :
  hash_function true (String "a" (String zero "b")) = hash_function true "a".
Proof. reflexivity. Qed.

Example hash_function_wraps :
  hash_function true "aaaaaaaaaaaaa" = 10489111718802097106.
Proof. vm_compute. reflexivity. Qed.

(** A byte from 128 on enters the hash as a negative number where plain
    [char] is signed. *)
Example hash_function_high_byte_signed :
  hash_function true (String (ascii_of_nat 233) "") = 5381 * 33 + (233 - 256).
Proof. reflexivity. Qed.

Example hash_function_high_byte_unsigned :
  hash_function false (String (ascii_of_nat 233) "") = 5381 * 33 + 233.
Proof. reflexivity. Qed.

Example strcmp_examples :
  strcmp "ab" "ab" = 0 /\ strcmp "ab" "ac" = -1 /\ strcmp "ab" "a" = 98.
Proof. repeat split. Qed.

Example float32_of_size_examples :
  float32_of_size 16777215 = Float32 16777215 1 /\
  float32_of_size 16777217 = Float32 16777216 1 /\
  float32_of_size 16777219 = Float32 16777220 1 /\
  float32_of_size 22369627 = Float32 22369628 1.
Proof. vm_compute. repeat split. Qed.

Example float32_div_example :
  float32_div (Float32 1 1) (Float32 3 1) = Float32 11184811 (2 ^ 25).
Proof. vm_compute. reflexivity. Qed.

Example load_factor_reached_examples :
  load_factor_reached 1 1 = true /\
  load_factor_reached 2 4 = false /\
  load_factor_reached 3 4 = true /\
  load_factor_reached 16777221 22369627 = false /\
  load_factor_reached 16777222 22369627 = true.
Proof. vm_compute. repeat split. Qed.

Example example_table_value :
  example_table true
  = {| capacity := 4; length := 2;
       data := [[]; []; [Entry "a" 1]; [Entry "b" 2]] |}.
Proof. reflexivity. Qed.

Example example_table_grows :
  hashmap_put true (example_table true) "i" 3
  = Result tt
      {| capacity := 8; length := 3;
         data := [[]; []; []; []; []; [];
                  [Entry "a" 1; Entry "i" 3]; [Entry "b" 2]] |}
      [ev_strdup "i"; ev_release_data].
Proof. vm_compute. reflexivity. Qed.

Example example_table_overwrite :
  hashmap_put true (example_table true) "a" 7
  = Result tt
      {| capacity := 4; length := 2;
         data := [[]; []; [Entry "a" 7]; [Entry "b" 2]] |}
      [ev_call free 1].
Proof. vm_compute. reflexivity. Qed.

Example example_table_remove :
  hashmap_remove true (example_table true) "b"
  = Result 2
      {| capacity := 4; length := 1;
         data := [[]; []; [Entry "a" 1]; []] |}
      [ev_release_key "b"; ev_release_entry "b"].
Proof. vm_compute. reflexivity. Qed.

Example example_table_destroy :
  hashmap_destroy (Some (example_table true))
  = Some [ev_release_key "a"; ev_call free 1; ev_release_entry "a";
          ev_release_key "b"; ev_call free 2; ev_release_entry "b";
          ev_release_data; ev_release_map].
Proof. vm_compute. reflexivity. Qed.

Example hashmap_destroy_custom_null_destructor :
  hashmap_destroy_custom (Some (example_table true)) None = None.
Proof. vm_compute. reflexivity. Qed.

Example type_keyword_examples :
  type_keyword "fn" = TOKEN_FUNCTION /\
  type_keyword "true" = TOKEN_BOOLEAN /\
  type_keyword "false" = TOKEN_BOOLEAN /\
  type_keyword "fnord" = TOKEN_IDENTIFIER /\
  type_keyword "f" = TOKEN_IDENTIFIER.
Proof. repeat split. Qed.

Example example_table_print :
  hashmap_print (example_table true)
  = [out_printf ("Hashmap Size: %zu" ++ LF) [arg_size 2];
     out_printf ("Hashmap Contents:" ++ LF) [];
     out_printf ("[%zu] Key: %s, Value: %p" ++ LF)
       [arg_size 2; arg_string "a"; arg_pointer 1];
     out_printf ("[%zu] Key: %s, Value: %p" ++ LF)
       [arg_size 3; arg_string "b"; arg_pointer 2]].
Proof. vm_compute. reflexivity. Qed.

Example example_table_print_custom :
  hashmap_print_custom (example_table true) (Some (printer_at 7))
  = Some [out_printf ("Hashmap array: %zu" ++ LF) [arg_size 2];
          out_printf "[%zu] Key: %s, Value: " [arg_size 2; arg_string "a"];
          out_print (printer_at 7) 1;
          out_printf LF [];
          out_printf "[%zu] Key: %s, Value: " [arg_size 3; arg_string "b"];
          out_print (printer_at 7) 2;
          out_printf LF []].
Proof. vm_compute. reflexivity. Qed.

Example empty_table_print_custom :
  hashmap_print_custom (hashmap_create 4) None
  = Some [out_printf ("Hashmap array: %zu" ++ LF) [arg_size 0];
          out_printf ("Hashmap is empty" ++ LF) []].
Proof. vm_compute. reflexivity. Qed.

(** A table with a [NULL] value: the value of "a" is overwritten by [NULL]. *)
Example table_with_NULL_destroy_layout_attribute :
  hashmap_destroy_layout_attribute (fun _ => Some (destructor_at 5))
    (Some (table (hashmap_put_custom true (example_table true) "a" NULL None)))
  = Some [ev_release_key "a"; ev_release_entry "a";
          ev_release_key "b"; ev_call (destructor_at 5) 2; ev_release_entry "b";
          ev_release_data; ev_release_map].
Proof. vm_compute. reflexivity. Qed.

Example table_with_NULL_print_layout_attribute :
  hashmap_print_layout_attribute (fun _ => Some (printer_at 6))
    (table (hashmap_put_custom true (example_table true) "a" NULL None))
  = Some [out_printf ("Hashmap length: %zu" ++ LF) [arg_size 2];
          out_printf "[%zu] Key: %s, Value: " [arg_size 2; arg_string "a"];
          out_printf ("NULL" ++ LF) [];
          out_printf "[%zu] Key: %s, Value: " [arg_size 3; arg_string "b"];
          out_print (printer_at 6) 2].
Proof. vm_compute. reflexivity. Qed.

Example example_table_has_any_sub_value :
  hashmap_has_any_sub_value_layout_attribute_style_state
    (fun v => v =? 2) (Some (example_table true)) = true /\
  hashmap_has_any_sub_value_layout_attribute_style_state
    (fun v => v =? 5) (Some (example_table true)) = false /\
  hashmap_layout_attribute_has_any_sub_value
    (fun _ => true) (Some (hashmap_create 4)) = false.
Proof. repeat split. Qed.

Example token_type_value_examples :
  token_type_value TOKEN_LEFT_BRACE = 123 /\
  token_type_value TOKEN_NOT = 33 /\
  token_type_value TOKEN_IDENTIFIER = 314 /\
  token_type_value TOKEN_ERROR = 330.
Proof. repeat split. Qed.

(** ** The properties on the example table *)

Lemma example_table_wf : hashmap_wf true (example_table true).
Proof.
  apply (run_spec true (hashmap_create 4) example_ops EmptyString).
  apply hashmap_create_wf. lia.
Qed.

Lemma hashmap_get_last_written_witness :
  1 <= 4 /\
  let m := run true (hashmap_create 4) example_ops in
  returned (hashmap_get true m "a") = default NULL (last_written "a" example_ops) /\
  forall k1 v free_fn,
    cstr k1 <> cstr "a" ->
    returned (hashmap_get true (table (hashmap_put true m k1 v)) "a")
    = returned (hashmap_get true m "a") /\
    returned (hashmap_get true (table (hashmap_put_custom true m k1 v free_fn)) "a")
    = returned (hashmap_get true m "a") /\
    returned (hashmap_get true (table (hashmap_remove true m k1)) "a")
    = returned (hashmap_get true m "a").
Proof.
  split; [lia|].
  apply (hashmap_get_last_written true 4 example_ops "a"). lia.
Defined.

Lemma hashmap_put_custom_growth_witness :
  hashmap_wf true (example_table true) /\
  returned (hashmap_has true (example_table true) "i") = false /\
  load_factor_reached (length (example_table true) + 1)
    (capacity (example_table true)) = true /\
  let linked := hashmap_link_new true (example_table true) "i" 3 in
  let after := table (hashmap_put_custom true (example_table true) "i" 3 None) in
  after = hashmap_grow true linked /\
  capacity after = 2 * capacity (example_table true) /\
  Z.of_nat (List.length (data after)) = 2 * capacity (example_table true) /\
  (forall (i : nat) chain e,
     data after !! i = Some chain -> e ∈ chain ->
     hash_function true (key e) mod (2 * capacity (example_table true))
     = Z.of_nat i) /\
  entries after ≡ₚ entries linked /\
  (forall k', returned (hashmap_get true after k')
              = returned (hashmap_get true linked k')) /\
  (forall k', returned (hashmap_has true after k')
              = returned (hashmap_has true linked k')) /\
  returned (hashmap_get true after "i") = 3 /\
  (forall k', cstr k' <> cstr "i" ->
     returned (hashmap_get true after k')
     = returned (hashmap_get true (example_table true) k')) /\
  length after = length (example_table true) + 1.
Proof.
  split; [exact example_table_wf|].
  split; [reflexivity|].
  split; [vm_compute; reflexivity|].
  apply (hashmap_put_custom_growth true (example_table true) "i" 3 None).
  - exact example_table_wf.
  - reflexivity.
  - vm_compute. reflexivity.
Defined.

Lemma hashmap_remove_correct_witness :
  hashmap_wf true (example_table true) /\
  returned (hashmap_has true (example_table true) "a") = true /\
  let index := hash_function true "a" mod capacity (example_table true) in
  let r := hashmap_remove true (example_table true) "a" in
  exists front found back,
    bucket (data (example_table true)) index = front ++ found :: back /\
    key found = cstr "a" /\
    (cstr "a" ∉ key <$> front) /\
    table r = {| capacity := capacity (example_table true);
                 length := length (example_table true) - 1;
                 data := set_bucket (data (example_table true)) index
                           (front ++ back) |} /\
    returned r = value found /\
    events r = [ev_release_key (key found); ev_release_entry (key found)] /\
    destructor_calls (events r) = [] /\
    returned (hashmap_has true (table r) "a") = false /\
    forall k', cstr k' <> cstr "a" ->
      returned (hashmap_get true (table r) k')
      = returned (hashmap_get true (example_table true) k').
Proof.
  split; [exact example_table_wf|].
  split; [reflexivity|].
  destruct (hashmap_remove_correct true (example_table true) "a"
              example_table_wf) as [Hpresent _].
  apply Hpresent. reflexivity.
Defined.

Lemma hashmap_put_custom_overwrite_witness :
  hashmap_wf true (example_table true) /\
  returned (hashmap_has true (example_table true) "a") = true /\
  let index := hash_function true "a" mod capacity (example_table true) in
  let r := hashmap_put_custom true (example_table true) "a" 5 (Some free) in
  exists front old back,
    bucket (data (example_table true)) index
    = front ++ Entry (cstr "a") old :: back /\
    (cstr "a" ∉ key <$> front) /\
    table r = {| capacity := capacity (example_table true);
                 length := length (example_table true);
                 data := set_bucket (data (example_table true)) index
                           (front ++ Entry (cstr "a") 5 :: back) |} /\
    events r = [ev_call free old] /\
    capacity (table r) = capacity (example_table true) /\
    length (table r) = length (example_table true).
Proof.
  split; [exact example_table_wf|].
  split; [reflexivity|].
  apply (hashmap_put_custom_overwrite true (example_table true) "a" 5 (Some free)).
  - exact example_table_wf.
  - reflexivity.
Defined.


Lemma hashmap_destroy_custom_once_witness :
  hashmap_wf true (example_table true) /\
  exists evs,
    hashmap_destroy_custom (Some (example_table true)) (Some free) = Some evs /\
    evs = (entries (example_table true) ≫= entry_events free)
          ++ [ev_release_data; ev_release_map] /\
    destructor_calls evs
    = (fun e => (free, value e)) <$> entries (example_table true) /\
    released_keys evs = key <$> entries (example_table true) /\
    released_entries evs = key <$> entries (example_table true) /\
    NoDup (key <$> entries (example_table true)) /\
    Z.of_nat (List.length (entries (example_table true)))
    = length (example_table true) /\
    hashmap_destroy (Some (example_table true))
    = hashmap_destroy_custom (Some (example_table true)) (Some free).
Proof.
  split; [exact example_table_wf|].
  apply (hashmap_destroy_custom_once true (example_table true) free).
  exact example_table_wf.
Defined.

Lemma hash_function_djb2_witness :
  hashmap_wf true (example_table true) /\
  hash_function true "a" = (5381 * 33 + 97) mod 2 ^ 64 /\
  hash_function true "a" = djb2_bytes "a" /\
  returned (hashmap_get true (example_table true) "a") = 1 /\
  returned (hashmap_remove true (example_table true) "a") = 1 /\
  bucket (data (table (hashmap_remove true (example_table true) "a"))) 3
  = bucket (data (example_table true)) 3 /\
  bucket (data (table (hashmap_put_custom true (example_table true) "a" 5 None))) 3
  = bucket (data (example_table true)) 3 /\
  returned (hashmap_get true (example_table true) "c") = NULL /\
  (let after := table (hashmap_put_custom true (example_table true) "c" 3 None) in
   capacity after = 2 * capacity (example_table true) /\
   Entry "c" 3
     ∈ bucket (data after) (hash_function true "c" mod capacity after) /\
   Entry "a" 1
     ∈ bucket (data after) (hash_function true "a" mod capacity after)).
Proof.
  destruct (hash_function_djb2 true "a") as (Hfold & _ & Hbytes & Htable).
  destruct (Htable (example_table true) example_table_wf)
    as (_ & Hfound & _ & Hremove & Hput).
  destruct (Hput 5 None) as (_ & _ & Hother & _).
  assert (Ha : Entry "a" 1 ∈ entries (example_table true)).
  { vm_compute. apply list_elem_of_here. }
  destruct (Hfound (Entry "a" 1) Ha eq_refl) as (_ & Hget & _ & Hrem).
  destruct (hash_function_djb2 true "c") as (_ & _ & _ & Htable').
  destruct (Htable' (example_table true) example_table_wf)
    as (_ & _ & Habsent & _ & Hput').
  destruct (Hput' 3 None) as (_ & Hgrows & _ & Hnew & Hold & _).
  split; [exact example_table_wf|].
  split; [rewrite Hfold; reflexivity|].
  split; [apply Hbytes; right; repeat constructor|].
  split; [exact Hget|].
  split; [exact Hrem|].
  split; [apply Hremove; [lia|vm_compute; discriminate]|].
  split; [apply Hother; [reflexivity|lia|vm_compute; discriminate]|].
  split.
  { apply Habsent. intros e He. vm_compute in He.
    apply elem_of_nil in He. destruct He. }
  split; [apply Hgrows; split; vm_compute; reflexivity|].
  split; [exact Hnew|].
  apply (Hold (Entry "a" 1) Ha).
  intros Hk. vm_compute in Hk. discriminate Hk.
Defined.

Lemma type_keyword_correct_witness :
  Keyword "while" TOKEN_WHILE ∈ keywords /\
  cstr "while" = name (Keyword "while" TOKEN_WHILE) /\
  type_keyword "while" = TOKEN_WHILE /\
  (forall kw, kw ∈ keywords -> cstr "whilst" <> name kw) /\
  type_keyword "whilst" = TOKEN_IDENTIFIER.
Proof.
  assert (Hin : Keyword "while" TOKEN_WHILE ∈ keywords).
  { unfold keywords. do 7 apply list_elem_of_further. apply list_elem_of_here. }
  assert (Hnone : forall kw, kw ∈ keywords -> cstr "whilst" <> name kw).
  { intros kw Hkw. unfold keywords in Hkw.
    repeat (apply elem_of_cons in Hkw as [->|Hkw]; [discriminate|]).
    by apply elem_of_nil in Hkw. }
  destruct (type_keyword_correct "while") as (_ & _ & _ & Hkeyword & _).
  destruct (type_keyword_correct "whilst") as (_ & _ & _ & _ & Hidentifier).
  split; [exact Hin|].
  split; [reflexivity|].
  split; [exact (Hkeyword _ Hin eq_refl)|].
  split; [exact Hnone|].
  exact (Hidentifier Hnone).
Defined.

Lemma hashmap_has_and_get_witness :
  hashmap_wf true (example_table true) /\
  (forall free_fn,
     let m' := table (hashmap_put_custom true (example_table true) "a" NULL free_fn) in
     returned (hashmap_get true m' "a") = NULL /\
     returned (hashmap_has true m' "a") = true) /\
  (returned (hashmap_has true (example_table true) "a") = false ->
   returned (hashmap_get true (example_table true) "a") = NULL) /\
  (returned (hashmap_has true (example_table true) "a") = true
   <-> exists e, e ∈ entries (example_table true) /\ key e = cstr "a") /\
  table (hashmap_get true (example_table true) "a") = example_table true /\
  events (hashmap_get true (example_table true) "a") = [] /\
  table (hashmap_has true (example_table true) "a") = example_table true /\
  events (hashmap_has true (example_table true) "a") = [].
Proof.
  split; [exact example_table_wf|].
  apply (hashmap_has_and_get true (example_table true) "a").
  exact example_table_wf.
Defined.


(** C8, as the specification states it, does not hold where plain [char]
    is signed: for the key of the one byte 233 the hash is
    [5381 * 33 + (233 - 256)], that of the fold over the bytes is
    [5381 * 33 + 233]. *)
Lemma hash_function_not_byte_fold :
  ~ (forall k, hash_function true k = djb2_bytes k).
Proof.
  intros Hbytes.
  specialize (Hbytes (String (ascii_of_nat 233) EmptyString)).
  vm_compute in Hbytes. discriminate Hbytes.
Qed.

(** ** The token types as integers *)

(** X15.  The enumerators of [token_type_t] are distinct integers.  The
    end of input is [-1], the only negative one.  A token of one character
    is the code of that character, a printable one below 127, and no
    other enumerator is in that range.  Every other token type, the
    keywords among them, is between 300 and 330, above any character
    code: they are numbered from 300 on in the order of the declaration.
    So a character used as a token type is never taken for another token
    type. *)
Theorem token_type_value_distinct :
  (forall t, t ∈ token_types) /\
  NoDup (token_type_value <$> token_types) /\
  (forall t, token_type_value t = -1 \/
             32 < token_type_value t < 127 \/
             300 <= token_type_value t <= 330) /\
  Forall (fun kw => 300 <= token_type_value (type kw) <= 330) keywords /\
  token_type_value TOKEN_EOF = -1 /\
  (forall t, token_type_value t < 0 -> t = TOKEN_EOF) /\
  token_type_value
    <$> [TOKEN_LEFT_BRACE; TOKEN_RIGHT_BRACE; TOKEN_LEFT_BRACKET;
         TOKEN_RIGHT_BRACKET; TOKEN_COLON; TOKEN_COMMA; TOKEN_LEFT_PAREN;
         TOKEN_RIGHT_PAREN; TOKEN_PLUS; TOKEN_MINUS; TOKEN_MULTIPLY;
         TOKEN_DIVIDE; TOKEN_MOD; TOKEN_POWER; TOKEN_ASSIGN; TOKEN_LESS;
         TOKEN_GREATER; TOKEN_NOT]
  = byte_of_char
    <$> ["{"; "}"; "["; "]"; ":"; ","; "("; ")"; "+"; "-"; "*"; "/"; "%";
         "^"; "="; "<"; ">"; "!"]%char /\
  byte_of_char
    <$> ["{"; "}"; "["; "]"; ":"; ","; "("; ")"; "+"; "-"; "*"; "/"; "%";
         "^"; "="; "<"; ">"; "!"]%char
  = [123; 125; 91; 93; 58; 44; 40; 41; 43; 45; 42; 47; 37; 94; 61; 60; 62; 33] /\
  (forall t, 32 < token_type_value t < 127 ->
     t ∈ take 18 (drop 1 token_types)) /\
  token_type_value <$> drop 19 token_types = seqZ 300 31.
Proof.
  split_and!.
  - intros t. unfold token_types.
    destruct t; repeat (first [apply list_elem_of_here | apply list_elem_of_further]).
  - vm_compute. nodup_literals.
  - intros t. destruct t; vm_compute; first
      [ left; reflexivity
      | right; left; split; reflexivity
      | right; right; split; discriminate ].
  - unfold keywords. repeat (apply Forall_cons; split; [vm_compute; split; discriminate|]).
    apply Forall_nil_2.
  - reflexivity.
  - intros t. destruct t; first [reflexivity | vm_compute; discriminate].
  - reflexivity.
  - reflexivity.
  - intros t [Hlo Hhi]. destruct t;
      first [ vm_compute in Hlo; discriminate Hlo
            | vm_compute in Hhi; discriminate Hhi
            | cbn [token_types drop take];
              repeat (first [apply list_elem_of_here | apply list_elem_of_further]) ].
  - vm_compute. reflexivity.
Qed.

Lemma token_type_value_distinct_witness :
  token_type_value TOKEN_EOF < 0 /\
  32 < token_type_value TOKEN_PLUS < 127 /\
  TOKEN_PLUS ∈ take 18 (drop 1 token_types) /\
  token_type_value TOKEN_PLUS = byte_of_char "+" /\
  token_type_value TOKEN_WHILE = 326.
Proof.
  destruct token_type_value_distinct
    as (_ & _ & _ & _ & _ & _ & _ & _ & Hsingle & _).
  assert (Hplus : 32 < token_type_value TOKEN_PLUS < 127)
    by (split; reflexivity).
  split; [reflexivity|]. split; [exact Hplus|].
  split; [exact (Hsingle TOKEN_PLUS Hplus)|].
  split; reflexivity.
Defined.

(** ** The further properties on the example table *)

Lemma run_invariant_witness :
  1 <= 4 /\
  NoDup (key <$> entries (run true (hashmap_create 4) example_ops)) /\
  length (run true (hashmap_create 4) example_ops)
  = Z.of_nat (List.length (entries (run true (hashmap_create 4) example_ops))).
Proof.
  destruct (run_invariant true 4 example_ops ltac:(lia))
    as (_ & _ & _ & Hunique & Hlength & _).
  split; [lia|]. split; [exact Hunique|exact Hlength].
Defined.

Lemma hashmap_length_counts_keys_witness :
  hashmap_wf true (example_table true) /\
  length (example_table true) = Z.of_nat (size (contents (example_table true))).
Proof.
  split; [exact example_table_wf|].
  apply (hashmap_length_counts_keys true (example_table true) example_table_wf).
Defined.

Lemma one_key_table_wf :
  hashmap_wf true (run true (hashmap_create 4) [op_put "a" 1]).
Proof.
  apply (run_spec true (hashmap_create 4) [op_put "a" 1] EmptyString).
  apply hashmap_create_wf. lia.
Qed.

Lemma hashmap_put_remove_witness :
  let m := run true (hashmap_create 4) [op_put "a" 1] in
  hashmap_wf true m /\
  returned (hashmap_has true m "c") = false /\
  load_factor_reached (length m + 1) (capacity m) = false /\
  let r := hashmap_remove true (table (hashmap_put_custom true m "c" 3 None)) "c" in
  returned r = 3 /\
  destructor_calls (events r) = [] /\
  length (table r) = length m /\
  table r = m.
Proof.
  intros m.
  destruct (hashmap_put_remove true m "c" 3 None one_key_table_wf eq_refl)
    as (Hret & Hcalls & Hlen & _ & _ & Hsame).
  split; [exact one_key_table_wf|].
  split; [reflexivity|].
  split; [vm_compute; reflexivity|].
  split; [exact Hret|]. split; [exact Hcalls|]. split; [exact Hlen|].
  apply Hsame. vm_compute. reflexivity.
Defined.

Lemma hashmap_put_custom_destroys_old_witness :
  hashmap_wf true (example_table true) /\
  returned (hashmap_has true (example_table true) "a") = true /\
  events (hashmap_put_custom true (example_table true) "a" 9 (Some free))
  = [ev_call free (returned (hashmap_get true (example_table true) "a"))] /\
  events (hashmap_put_custom true
            (table (hashmap_put_custom true (example_table true) "c" 9 None))
            "c" 9 (Some free))
  = [ev_call free 9].
Proof.
  destruct (hashmap_put_custom_destroys_old true (example_table true) "a"
              example_table_wf) as [Hold _].
  destruct (hashmap_put_custom_destroys_old true (example_table true) "c"
              example_table_wf) as [_ Hsame].
  split; [exact example_table_wf|].
  split; [reflexivity|].
  split; [exact (Hold eq_refl 9 free)|].
  exact (proj1 (Hsame 9 None free)).
Defined.

Lemma run_capacity_witness :
  1 <= 4 /\
  (exists j : nat,
     (j <= List.length example_ops)%nat /\
     capacity (run true (hashmap_create 4) example_ops) = 4 * 2 ^ Z.of_nat j) /\
  (forall o,
     capacity (apply_operation true (run true (hashmap_create 4) example_ops) o)
     = capacity (run true (hashmap_create 4) example_ops) \/
     capacity (apply_operation true (run true (hashmap_create 4) example_ops) o)
     = 2 * capacity (run true (hashmap_create 4) example_ops)) /\
  (forall n,
     capacity (run true (hashmap_create 4) (take n example_ops))
     <= capacity (run true (hashmap_create 4) example_ops)) /\
  4 <= capacity (run true (hashmap_create 4) example_ops).
Proof.
  split; [lia|]. apply (run_capacity true 4 example_ops). lia.
Defined.

Lemma hashmap_put_custom_grows_iff_witness :
  hashmap_wf true (example_table true) /\
  capacity (example_table true) < 2 ^ 23 /\
  length (example_table true) + 1 < 2 ^ 24 /\
  capacity (table (hashmap_put_custom true (example_table true) "c" 3 None))
  = 2 * capacity (example_table true).
Proof.
  assert (Hcap : capacity (example_table true) < 2 ^ 23) by reflexivity.
  assert (Hlen : length (example_table true) + 1 < 2 ^ 24) by reflexivity.
  destruct (hashmap_put_custom_grows_iff true (example_table true) "c" 3 None
              example_table_wf Hcap Hlen) as [[_ Hgrows] _].
  split; [exact example_table_wf|].
  split; [exact Hcap|]. split; [exact Hlen|].
  apply Hgrows. split; [reflexivity|]. vm_compute. discriminate.
Defined.

Lemma hashmap_put_custom_growth_order_witness :
  hashmap_wf true (example_table true) /\
  returned (hashmap_has true (example_table true) "i") = false /\
  load_factor_reached (length (example_table true) + 1)
    (capacity (example_table true)) = true /\
  exists front,
    bucket (data (table (hashmap_put_custom true (example_table true) "i" 3 None)))
      (hash_function true "i" mod (2 * capacity (example_table true)))
    = front ++ [Entry (strdup "i") 3].
Proof.
  assert (Hload : load_factor_reached (length (example_table true) + 1)
                    (capacity (example_table true)) = true)
    by (vm_compute; reflexivity).
  split; [exact example_table_wf|].
  split; [reflexivity|]. split; [exact Hload|].
  apply (hashmap_put_custom_growth_order true (example_table true) "i" 3 None
           example_table_wf eq_refl Hload).
Defined.

Lemma hashmap_destroy_custom_NULL_witness :
  hashmap_wf true (example_table true) /\
  0 < length (example_table true) /\
  hashmap_destroy_custom (Some (example_table true)) None = None.
Proof.
  destruct (hashmap_destroy_custom_NULL true (example_table true)
              example_table_wf) as [[_ Hcrash] _].
  split; [exact example_table_wf|]. split; [reflexivity|].
  apply Hcrash. reflexivity.
Defined.

Lemma run_load_after_each_call_witness :
  1 <= 4 /\
  capacity (run true (hashmap_create 4) example_ops) < 2 ^ 23 /\
  let m := run true (hashmap_create 4) (take 1 example_ops) in
  4 * length m < 3 * capacity m.
Proof.
  split; [lia|]. split; [reflexivity|].
  apply (run_load_after_each_call true 4 example_ops 1); [lia|reflexivity].
Defined.

Lemma hashmap_print_lines_witness :
  hashmap_wf true (example_table true) /\
  Z.of_nat (List.length (hashmap_print (example_table true)))
  = 2 + length (example_table true) /\
  printed_keys (hashmap_print (example_table true))
  = key <$> entries (example_table true).
Proof.
  destruct (hashmap_print_lines true (example_table true) example_table_wf)
    as (_ & Hcount & Hkeys).
  split; [exact example_table_wf|]. split; [exact Hcount|exact Hkeys].
Defined.

Lemma hashmap_print_custom_calls_witness :
  hashmap_wf true (example_table true) /\
  exists outs,
    hashmap_print_custom (example_table true) (Some (printer_at 7)) = Some outs /\
    printer_calls outs
    = (fun e => (printer_at 7, value e)) <$> entries (example_table true) /\
    printed_keys outs = key <$> entries (example_table true).
Proof.
  destruct (hashmap_print_custom_calls true (example_table true)
              example_table_wf) as [Hcalls _].
  split; [exact example_table_wf|]. exact (Hcalls (printer_at 7)).
Defined.

Lemma example_table_values e :
  e ∈ entries (example_table true) -> value e <> NULL.
Proof.
  change (entries (example_table true)) with [Entry "a" 1; Entry "b" 2].
  intros He. repeat (apply elem_of_cons in He as [->|He]; [discriminate|]).
  by apply elem_of_nil in He.
Qed.

Lemma hashmap_destroy_layout_attribute_once_witness :
  hashmap_wf true (example_table true) /\
  (forall e, e ∈ entries (example_table true) -> value e <> NULL ->
     is_Some ((fun _ : ptr => Some free) (value e))) /\
  hashmap_destroy_layout_attribute (fun _ => Some free) (Some (example_table true))
  = hashmap_destroy_custom (Some (example_table true)) (Some free).
Proof.
  assert (Hfield : forall e, e ∈ entries (example_table true) ->
            value e <> NULL -> is_Some ((fun _ : ptr => Some free) (value e)))
    by (intros e _ _; exact (mk_is_Some _ _ eq_refl)).
  destruct (hashmap_destroy_layout_attribute_once true (fun _ => Some free)
              (example_table true) example_table_wf Hfield) as [_ Hsame].
  split; [exact example_table_wf|]. split; [exact Hfield|].
  apply Hsame. intros e He. split; [by apply example_table_values|reflexivity].
Defined.

Lemma hashmap_has_any_sub_value_correct_witness :
  hashmap_wf true (example_table true) /\
  hashmap_has_any_sub_value_layout_attribute_style_state
    (fun v => v =? 2) (Some (example_table true)) = true.
Proof.
  destruct (hashmap_has_any_sub_value_correct true (fun v => v =? 2)
              (example_table true) example_table_wf) as [[_ Hsome] _].
  split; [exact example_table_wf|].
  apply Hsome. exists "b". split; [vm_compute; discriminate|vm_compute; reflexivity].
Defined.

Lemma null_value_table_wf :
  hashmap_wf true (run true (hashmap_create 4) [op_put "a" NULL; op_put "b" 2]).
Proof.
  apply (run_spec true (hashmap_create 4) [op_put "a" NULL; op_put "b" 2]
           EmptyString).
  apply hashmap_create_wf. lia.
Qed.

Lemma hashmap_print_layout_attribute_calls_witness :
  let m := run true (hashmap_create 4) [op_put "a" NULL; op_put "b" 2] in
  let print_field := fun _ : ptr => Some (printer_at 1) in
  hashmap_wf true m /\
  (forall e, e ∈ entries m -> value e <> NULL ->
     is_Some (print_field (value e))) /\
  0 < length m /\
  Entry "a" NULL ∈ entries m /\
  (exists outs,
     hashmap_print_layout_attribute print_field m = Some outs /\
     printed_keys outs = key <$> entries m) /\
  hashmap_print_layout_attribute print_field m
  = Some (out_printf ("Hashmap length: %zu" ++ LF) [arg_size (length m)]
          :: (entries m ≫=
                fun e => entry_outputs_layout_attribute print_field
                           (hash_function true (key e) mod capacity m) e)) /\
  exists before behind,
    hashmap_print_layout_attribute print_field m
    = Some (before
            ++ out_printf "[%zu] Key: %s, Value: "
                 [arg_size (hash_function true "a" mod capacity m);
                  arg_string "a"]
            :: out_printf ("NULL" ++ LF) [] :: behind).
Proof.
  intros m print_field.
  assert (Hfield : forall e, e ∈ entries m -> value e <> NULL ->
            is_Some (print_field (value e)))
    by (intros e _ _; exact (mk_is_Some _ _ eq_refl)).
  assert (Hpos : 0 < length m) by reflexivity.
  assert (Ha : Entry "a" NULL ∈ entries m).
  { vm_compute. apply list_elem_of_here. }
  destruct (hashmap_print_layout_attribute_calls true print_field m
              null_value_table_wf Hfield)
    as ((outs & Hout & Hkeys & _) & _ & Hfull & Hnull).
  split; [exact null_value_table_wf|]. split; [exact Hfield|].
  split; [exact Hpos|]. split; [exact Ha|].
  split; [exists outs; split; [exact Hout|exact Hkeys]|].
  split; [exact (Hfull Hpos)|].
  destruct (Hnull (Entry "a" NULL) outs Hout Ha eq_refl)
    as (before & behind & Heq).
  exists before, behind. rewrite Hout. f_equal. exact Heq.
Defined.

Lemma hashmap_remove_returns_get_witness :
  hashmap_wf true (example_table true) /\
  let r := hashmap_remove true (example_table true) "b" in
  returned r = returned (hashmap_get true (example_table true) "b") /\
  returned (hashmap_get true (table r) "b") = NULL /\
  returned (hashmap_has true (table r) "b") = false /\
  hashmap_remove true (table r) "b" = Result NULL (table r) [].
Proof.
  split; [exact example_table_wf|].
  apply (hashmap_remove_returns_get true (example_table true) "b").
  exact example_table_wf.
Defined.
